(** * A shallow embedding of the term model, unifier, engine and VM of
    the Go Prolog interpreter [ichiban/prolog].

    Two term implementations live in the sources:
    - [term.go]: the pointer-based terms of package [prolog], where a
      [*Variable] is a mutable cell with a [Ref] field; modelled in
      [PtrTerm] with an explicit heap of cells;
    - the [engine] package (unnamed part_000): immutable terms where a
      [Variable] is its name and bindings live in an environment;
      modelled in [Engine].

    Recursive Go methods that may run forever on cyclic structures are
    given a fuel argument; [None] stands for "did not return". *)

From Stdlib Require Import ZArith String List Lia.
From Stdlib Require Import Floats.
From stdpp Require Import base list strings gmap pretty.

Open Scope string_scope.
Open Scope list_scope.
#[local] Set Warnings "-register-all".

(* ================================================================== *)
(** ** term.go: pointer-based terms *)
(* ================================================================== *)

Module PtrTerm.

(** [Term] values: [Atom], [Integer], [*Variable] (a heap address),
    [*Compound]. *)
Inductive Term : Type :=
| Atom (a : string)
| Integer (i : Z)
| Var (p : nat)
| Compound (functor : string) (args : list Term).

(** [type Variable struct { Name string; Ref Term }]; [Ref = nil] is
    [None].  ([Variable] is a Rocq keyword, hence [VarCell].) *)
Record VarCell : Type := mkVariable { Name : string; Ref : option Term }.

(** The heap of variable cells; a [*Variable] is an index into it. *)
Abbreviation heap := (list VarCell).

(** [&Variable{Ref: r}]: allocate a fresh, unnamed cell. *)
Definition alloc (h : heap) (r : option Term) : heap * Term :=
  (app h [mkVariable "" r], Var (length h)).

(** [v.Ref = r] for the cell at address [p]. *)
Definition set_ref (p : nat) (r : option Term) (h : heap) : heap :=
  match h !! p with
  | Some v => <[p := mkVariable (Name v) r]> h
  | None => h
  end.

(** Go's interface comparison [t == s] on the non-variable,
    non-compound cases of [Contains]. *)
Definition iface_eqb (t s : Term) : bool :=
  match t, s with
  | Atom a, Atom b => String.eqb a b
  | Integer i, Integer j => Z.eqb i j
  | _, _ => false
  end.

(** [t == s] where [t] is the [*Variable] at address [p]. *)
Definition is_var_at (p : nat) (s : Term) : bool :=
  match s with Var q => Nat.eqb p q | _ => false end.

(** [s, ok := s.(Atom); ok && t.Functor == s]. *)
Definition is_atom_named (f : string) (s : Term) : bool :=
  match s with Atom a => String.eqb f a | _ => false end.

(** [func Contains(t, s Term) bool]. *)
Fixpoint Contains (fuel : nat) (h : heap) (t s : Term) {struct fuel} : option bool :=
  match fuel with
  | O => None
  | S n =>
    match t with
    | Var p =>
        if is_var_at p s then Some true else
        match h !! p with
        | None => None
        | Some v =>
          match Ref v with
          | None => Some false
          | Some r => Contains n h r s
          end
        end
    | Compound f args =>
        if is_atom_named f s then Some true else
        (fix go (l : list Term) : option bool :=
           match l with
           | [] => Some false
           | a :: l' =>
             match Contains n h a s with
             | Some true => Some true
             | Some false => go l'
             | None => None
             end
           end) args
    | _ => Some (iface_eqb t s)
    end
  end.

(** The [Unify(t Term, occursCheck bool) bool] method of every [Term],
    dispatched on the receiver [a]: [Atom.Unify], [Integer.Unify],
    [Variable.Unify] and [Compound.Unify].  The result pairs the
    heap after the [Ref] assignments with the returned [bool]. *)
Fixpoint Unify (fuel : nat) (h : heap) (a t : Term) (occursCheck : bool)
  {struct fuel} : option (heap * bool) :=
  match fuel with
  | O => None
  | S n =>
    match a with
    | Atom x =>
        match t with
        | Atom y => Some (h, String.eqb x y)
        | Var _ => Unify n h t a occursCheck
        | _ => Some (h, false)
        end
    | Integer i =>
        match t with
        | Integer j => Some (h, Z.eqb i j)
        | Var _ => Unify n h t a occursCheck
        | _ => Some (h, false)
        end
    | Var p =>
        (* if occursCheck && Contains(t, v) { return false } *)
        match (if occursCheck then Contains n h t a else Some false) with
        | None => None
        | Some true => Some (h, false)
        | Some false =>
          match h !! p with
          | None => None
          | Some v =>
            match Ref v with
            (* if v.Ref != nil { return v.Ref.Unify(t, occursCheck) } *)
            | Some r => Unify n h r t occursCheck
            | None =>
              match t with
              | Var q =>
                match h !! q with
                | None => None
                | Some w =>
                  match Ref w with
                  (* t = &Variable{}; w.Ref = t; v.Ref = t *)
                  | None =>
                    let '(h1, t1) := alloc h None in
                    Some (set_ref p (Some t1) (set_ref q (Some t1) h1), true)
                  | Some _ => Some (set_ref p (Some t) h, true)
                  end
                end
              | _ => Some (set_ref p (Some t) h, true)
              end
            end
          end
        end
    | Compound f args =>
        match t with
        | Compound g targs =>
          if negb (String.eqb f g) then Some (h, false) else
          if negb (Nat.eqb (length args) (length targs)) then Some (h, false) else
          (fix go (h : heap) (l1 l2 : list Term) : option (heap * bool) :=
             match l1, l2 with
             | a1 :: r1, a2 :: r2 =>
               match Unify n h a1 a2 occursCheck with
               | None => None
               | Some (h', false) => Some (h', false)
               | Some (h', true) => go h' r1 r2
               end
             | _, _ => Some (h, true)
             end) h args targs
        | Var _ => Unify n h t a occursCheck
        | _ => Some (h, false)
        end
    end
  end.

(** The [Copy() Term] method of every [Term]: atoms and integers are
    returned as they are, an unbound [*Variable] becomes [&Variable{}],
    a bound one [&Variable{Ref: v.Ref.Copy()}], and a compound copies
    its arguments in order. *)
Fixpoint Copy (fuel : nat) (h : heap) (t : Term) {struct fuel}
  : option (heap * Term) :=
  match fuel with
  | O => None
  | S n =>
    match t with
    | Atom _ | Integer _ => Some (h, t)
    | Var p =>
      match h !! p with
      | None => None
      | Some v =>
        match Ref v with
        | None => Some (alloc h None)
        | Some r =>
          match Copy n h r with
          | None => None
          | Some (h1, r1) => Some (alloc h1 (Some r1))
          end
        end
      end
    | Compound f args =>
      match (fix go (h : heap) (l : list Term) : option (heap * list Term) :=
               match l with
               | [] => Some (h, [])
               | a :: l' =>
                 match Copy n h a with
                 | None => None
                 | Some (h1, a1) =>
                   match go h1 l' with
                   | None => None
                   | Some (h2, l2) => Some (h2, a1 :: l2)
                   end
                 end
               end) h args with
      | None => None
      | Some (h', args') => Some (h', Compound f args')
      end
    end
  end.

(** Observations used to state what [Copy] produces. *)

(** The shape of a term seen through the heap: bound variables are
    followed, unbound ones are erased to [SVar]. *)
Inductive Shape : Type :=
| SAtom (a : string)
| SInteger (i : Z)
| SVar
| SCompound (functor : string) (args : list Shape).

Fixpoint shape (fuel : nat) (h : heap) (t : Term) {struct fuel} : option Shape :=
  match fuel with
  | O => None
  | S n =>
    match t with
    | Atom a => Some (SAtom a)
    | Integer i => Some (SInteger i)
    | Var p =>
      match h !! p with
      | None => None
      | Some v =>
        match Ref v with
        | None => Some SVar
        | Some r => shape n h r
        end
      end
    | Compound f args =>
      match (fix go (l : list Term) : option (list Shape) :=
               match l with
               | [] => Some []
               | a :: l' =>
                 match shape n h a, go l' with
                 | Some s, Some ss => Some (s :: ss)
                 | _, _ => None
                 end
               end) args with
      | None => None
      | Some ss => Some (SCompound f ss)
      end
    end
  end.

(** The addresses of the unbound variables reached in a term, left to
    right, one entry per occurrence. *)
Fixpoint uvars (fuel : nat) (h : heap) (t : Term) {struct fuel} : option (list nat) :=
  match fuel with
  | O => None
  | S n =>
    match t with
    | Atom _ | Integer _ => Some []
    | Var p =>
      match h !! p with
      | None => None
      | Some v =>
        match Ref v with
        | None => Some [p]
        | Some r => uvars n h r
        end
      end
    | Compound f args =>
      (fix go (l : list Term) : option (list nat) :=
         match l with
         | [] => Some []
         | a :: l' =>
           match uvars n h a, go l' with
           | Some s, Some ss => Some (app s ss)
           | _, _ => None
           end
         end) args
    end
  end.

(** Renaming the variables of a term by a map on addresses. *)
Fixpoint rename (m : nat -> nat) (t : Term) : Term :=
  match t with
  | Var p => Var (m p)
  | Compound f args => Compound f (map (rename m) args)
  | _ => t
  end.

(** The argument loops of [Copy], [shape], [uvars] and [Unify], named. *)
Definition copy_args (n : nat) : heap -> list Term -> option (heap * list Term) :=
  fix go (h : heap) (l : list Term) : option (heap * list Term) :=
    match l with
    | [] => Some (h, [])
    | a :: l' =>
      match Copy n h a with
      | None => None
      | Some (h1, a1) =>
        match go h1 l' with
        | None => None
        | Some (h2, l2) => Some (h2, a1 :: l2)
        end
      end
    end.

Definition shape_args (n : nat) (h : heap) : list Term -> option (list Shape) :=
  fix go (l : list Term) : option (list Shape) :=
    match l with
    | [] => Some []
    | a :: l' =>
      match shape n h a, go l' with
      | Some s, Some ss => Some (s :: ss)
      | _, _ => None
      end
    end.

Definition uvars_args (n : nat) (h : heap) : list Term -> option (list nat) :=
  fix go (l : list Term) : option (list nat) :=
    match l with
    | [] => Some []
    | a :: l' =>
      match uvars n h a, go l' with
      | Some s, Some ss => Some (app s ss)
      | _, _ => None
      end
    end.

Definition unify_args (n : nat) (oc : bool) : heap -> list Term -> list Term -> option (heap * bool) :=
  fix go (h : heap) (l1 l2 : list Term) : option (heap * bool) :=
    match l1, l2 with
    | a1 :: r1, a2 :: r2 =>
      match Unify n h a1 a2 oc with
      | None => None
      | Some (h', false) => Some (h', false)
      | Some (h', true) => go h' r1 r2
      end
    | _, _ => Some (h, true)
    end.

(** Argument lists unified pairwise, left to right, threading the heap. *)
Inductive args_unified (n : nat) (oc : bool) : heap -> list Term -> list Term -> heap -> Prop :=
| au_nil h : args_unified n oc h [] [] h
| au_cons h h1 h2 a b l1 l2 :
    Unify n h a b oc = Some (h1, true) ->
    args_unified n oc h1 l1 l2 h2 ->
    args_unified n oc h (a :: l1) (b :: l2) h2.

(** The heap reached by [X = f(X,X) = f(g(X),X)] after the first
    argument pair: [X] bound to [g(X)]. *)
Definition loop_heap : heap := [mkVariable "X" (Some (Compound "g" [Var 0]))].

(** Every address occurring in [t] is below [k]. *)
Fixpoint addrs_lt (k : nat) (t : Term) : Prop :=
  match t with
  | Var p => p < k
  | Compound _ args =>
    (fix go (l : list Term) : Prop :=
       match l with [] => True | a :: l' => addrs_lt k a /\ go l' end) args
  | _ => True
  end.

(** A heap without dangling pointers: every [Ref] it stores points into it. *)
Definition wf_heap (h : heap) : Prop :=
  forall p v r, h !! p = Some v -> Ref v = Some r -> addrs_lt (length h) r.

(** [func Cons(car, cdr Term) Term]. *)
Definition Cons (car cdr : Term) : Term := Compound "." [car; cdr].

(** [func ListRest(rest Term, ts ...Term) Term]: [l := rest], then
    [l = Cons(ts[i], l)] for [i] from [len(ts)-1] down to [0]. *)
Definition ListRest (rest : Term) (ts : list Term) : Term :=
  fold_right Cons rest ts.

(** [func List(ts ...Term) Term]. *)
Definition List (ts : list Term) : Term := ListRest (Atom "[]") ts.

(** The loop of [func Resolve(t Term) Term]: [stop] holds the bound
    variables already followed; a bound variable met again is returned
    as it is.  [None] stands for running out of [fuel] (or a dangling
    address, which Go pointers cannot have). *)
Fixpoint resolve_loop (fuel : nat) (h : heap) (stop : list nat) (t : Term) : option Term :=
  match fuel with
  | O => None
  | S n =>
    match t with
    | Var p =>
      match h !! p with
      | None => None
      | Some v =>
        match Ref v with
        | None => Some t
        | Some r =>
          if existsb (Nat.eqb p) stop then Some t
          else resolve_loop n h (app stop [p]) r
        end
      end
    | _ => Some t
    end
  end.

(** [Resolve(t)]: each iteration but the last adds a new cell to
    [stop], so [length h + 1] iterations suffice (see [Resolve_total]). *)
Definition Resolve (h : heap) (t : Term) : option Term :=
  resolve_loop (S (length h)) h [] t.

(** [reaches h p t]: following [Ref] from the cell [p], through bound
    variables, arrives at [t]. *)
Inductive reaches (h : heap) : nat -> Term -> Prop :=
| reaches_one p v t : h !! p = Some v -> Ref v = Some t -> reaches h p t
| reaches_step p v q t : h !! p = Some v -> Ref v = Some (Var q) -> reaches h q t ->
    reaches h p t.

(** A term without variables. *)
Fixpoint groundb (t : Term) : bool :=
  match t with
  | Var _ => false
  | Compound _ args =>
    (fix go (l : list Term) : bool :=
       match l with [] => true | a :: l' => groundb a && go l' end) args
  | _ => true
  end.

(** The argument loop of [Compound.Contains], named. *)
Definition contains_args (n : nat) (h : heap) (s : Term) : list Term -> option bool :=
  fix go (l : list Term) : option bool :=
    match l with
    | [] => Some false
    | a :: l' =>
      match Contains n h a s with
      | Some true => Some true
      | Some false => go l'
      | None => None
      end
    end.

End PtrTerm.

(* ================================================================== *)
(** ** The [engine] package: immutable terms and environments *)
(* ================================================================== *)

Module Engine.

(** [type Variable string] (constructor [Var]: [Variable] is a Rocq
    keyword), [type Atom string], [type Integer int64],
    [type Float float64], [type Compound struct { Functor Atom; Args
    []Term }]. *)
Inductive Term : Type :=
| Var (name : string)
| Atom (a : string)
| Integer (i : Z)
| Float (f : PrimFloat.float)
| Compound (functor : string) (args : list Term).

(** Modelled from the spec: [Env] (absent from src), the persistent
    mapping from variable identity to term of section 3, with
    [resolve] walking bindings to a non-variable or an unbound variable
    and [bind] extending the mapping. *)
Definition Env : Type := gmap string Term.

Fixpoint resolve_go (n : nat) (env : Env) (t : Term) : Term :=
  match n with
  | O => t
  | S n' =>
    match t with
    | Var v =>
      match env !! v with
      | Some t' => resolve_go n' env t'
      | None => t
      end
    | _ => t
    end
  end.

Definition Resolve (env : Env) (t : Term) : Term :=
  resolve_go (S (size env)) env t.

Definition Bind (env : Env) (v : string) (t : Term) : Env := <[v := t]> env.

(** Modelled from the spec: [Contains(t, v, env)] (absent from src),
    "does the resolved term mention variable v". *)
Fixpoint Contains (fuel : nat) (env : Env) (t : Term) (v : string) : option bool :=
  match fuel with
  | O => None
  | S n =>
    match Resolve env t with
    | Var w => Some (String.eqb w v)
    | Compound _ args =>
      (fix go (l : list Term) : option bool :=
         match l with
         | [] => Some false
         | a :: l' =>
           match Contains n env a v with
           | Some true => Some true
           | Some false => go l'
           | None => None
           end
         end) args
    | _ => Some false
    end
  end.

(** Go's [v == t] for a [Variable] [v] and a [Term] [t]. *)
Definition var_is (v : string) (t : Term) : bool :=
  match t with Var w => String.eqb v w | _ => false end.

(** Identity of atomic values ([Atom], [Integer], [Float]). *)
Definition atomic_eqb (a b : Term) : bool :=
  match a, b with
  | Atom x, Atom y => String.eqb x y
  | Integer i, Integer j => Z.eqb i j
  | Float x, Float y => PrimFloat.eqb x y
  | _, _ => false
  end.

(** Modelled from the spec (section 4.A; [Atom.Unify], [Integer.Unify],
    [Float.Unify] and [Compound.Unify] of the engine package are absent
    from src): a receiver other than a variable resolves [t], hands a
    variable [t] over to its own [Unify], unifies atomic values by
    identity, and unifies compounds by functor, arity and pairwise
    arguments left to right, threading [env].  [unify] is the recursive
    call. *)
Definition unify_nonvar (unify : Env -> Term -> Term -> option (Env * bool))
  (env : Env) (a t : Term) : option (Env * bool) :=
  match a with
  | Var _ => None (* not reached: variables are handled by [Variable.Unify] *)
  | Compound f args =>
    match Resolve env t with
    | Compound g targs =>
      if negb (String.eqb f g) then Some (env, false) else
      if negb (Nat.eqb (length args) (length targs)) then Some (env, false) else
      (fix go (env : Env) (l1 l2 : list Term) : option (Env * bool) :=
         match l1, l2 with
         | a1 :: r1, a2 :: r2 =>
           match unify env a1 a2 with
           | None => None
           | Some (env', false) => Some (env', false)
           | Some (env', true) => go env' r1 r2
           end
         | _, _ => Some (env, true)
         end) env args targs
    | Var w => unify env (Var w) a
    | _ => Some (env, false)
    end
  | _ =>
    match Resolve env t with
    | Var w => unify env (Var w) a
    | t' => Some (env, atomic_eqb a t')
    end
  end.

(** [Unify(t Term, occursCheck bool, env *Env) ( *Env, bool)] of every
    term, dispatched on the receiver [a].  The [Variable] case is
    [Variable.Unify] of part_000:
<<
  r, t := env.Resolve(v), env.Resolve(t)
  v, ok := r.(Variable)
  if !ok { return r.Unify(t, occursCheck, env) }
  switch {
  case v == t: return env, true
  case occursCheck && Contains(t, v, env): return env, false
  default: return env.Bind(v, t), true
  }
>>
    the other receivers are [unify_nonvar]. *)
Fixpoint Unify (fuel : nat) (env : Env) (a t : Term) (occursCheck : bool)
  {struct fuel} : option (Env * bool) :=
  match fuel with
  | O => None
  | S n =>
    match a with
    | Var v0 =>
      let r := Resolve env (Var v0) in
      let t := Resolve env t in
      match r with
      | Var v =>
        if var_is v t then Some (env, true) else
        match (if occursCheck then Contains n env t v else Some false) with
        | None => None
        | Some true => Some (env, false)
        | Some false => Some (Bind env v t, true)
        end
      | _ => Unify n env r t occursCheck
      end
    | _ => unify_nonvar (fun env x y => Unify n env x y occursCheck) env a t
    end
  end.

(** [strings.Compare(a, b)]: byte-wise lexicographic comparison. *)
Definition strings_Compare (a b : string) : Z :=
  match String.compare a b with Lt => (-1)%Z | Eq => 0%Z | Gt => 1%Z end.

(** Conversion of an [Integer] to a [Float] for mixed comparisons. *)
Definition float_of_Z (z : Z) : PrimFloat.float :=
  SF2Prim (SpecFloat.binary_normalize prec emax z 0 false).

Definition float_cmp (x y : PrimFloat.float) : Z :=
  match PrimFloat.compare x y with FLt => (-1)%Z | FGt => 1%Z | _ => 0%Z end.

(** Modelled from the spec (section 4.A; [Atom.Compare],
    [Integer.Compare], [Float.Compare] and [Compound.Compare] of the
    engine package are absent from src): a receiver [x] other than a
    variable resolves [b] and follows the standard order Variable <
    Number < Atom < Compound; numbers by value, a Float before an
    Integer of equal value; atoms by [strings.Compare]; compounds by
    arity, then functor, then arguments left to right.  [cmp] is the
    recursive call. *)
Definition compare_nonvar (cmp : Term -> Term -> option Z) (env : Env) (x b : Term)
  : option Z :=
  match x, Resolve env b with
  | Var _, _ => None (* not reached: variables are handled by [Variable.Compare] *)
  | _, Var _ => Some 1%Z
  | Integer i, Integer j => Some (match Z.compare i j with Lt => (-1)%Z | Eq => 0%Z | Gt => 1%Z end)
  | Integer i, Float y =>
      let c := float_cmp (float_of_Z i) y in Some (if Z.eqb c 0 then 1%Z else c)
  | Float x, Float y => Some (float_cmp x y)
  | Float x, Integer j =>
      let c := float_cmp x (float_of_Z j) in Some (if Z.eqb c 0 then (-1)%Z else c)
  | (Integer _ | Float _), _ => Some (-1)%Z
  | Atom _, (Integer _ | Float _) => Some 1%Z
  | Atom x, Atom y => Some (strings_Compare x y)
  | Atom _, _ => Some (-1)%Z
  | Compound f args, Compound g targs =>
    match Z.compare (Z.of_nat (length args)) (Z.of_nat (length targs)) with
    | Lt => Some (-1)%Z
    | Gt => Some 1%Z
    | Eq =>
      match strings_Compare f g with
      | 0%Z =>
        (fix go (l1 l2 : list Term) : option Z :=
           match l1, l2 with
           | x1 :: r1, x2 :: r2 =>
             match cmp x1 x2 with
             | None => None
             | Some 0%Z => go r1 r2
             | Some c => Some c
             end
           | _, _ => Some 0%Z
           end) args targs
      | c => Some c
      end
    end
  | Compound _ _, _ => Some 1%Z
  end.

(** [Compare(t Term, env *Env) int64] of every term, dispatched on the
    receiver [a].  The [Var] case is [Variable.Compare] of part_000:
<<
  switch v := env.Resolve(v).(type) {
  case Variable:
    switch t := env.Resolve(t).(type) {
    case Variable: return int64(strings.Compare(string(v), string(t)))
    default: return -1
    }
  default:
    return v.Compare(t, env)
  }
>>
    the other receivers are [compare_nonvar]. *)
Fixpoint Compare (fuel : nat) (env : Env) (a b : Term) {struct fuel} : option Z :=
  match fuel with
  | O => None
  | S n =>
    match a with
    | Var v =>
      match Resolve env (Var v) with
      | Var v' =>
        match Resolve env b with
        | Var w => Some (strings_Compare v' w)
        | _ => Some (-1)%Z
        end
      | r => compare_nonvar (Compare n env) env r b
      end
    | _ => compare_nonvar (Compare n env) env a b
    end
  end.

(** [var varCounter uint64] and [NewVariable]: the counter is
    incremented (wrapping at 2^64) and the new variable is named
    [fmt.Sprintf("_%d", varCounter)]. *)
Definition NewVariable (varCounter : Z) : Z * Term :=
  let c := ((varCounter + 1) mod 2 ^ 64)%Z in
  (c, Var (String.append "_" (pretty (Z.to_N c)))).

(** [k] successive calls of [NewVariable] from counter [c]. *)
Fixpoint new_variables (k : nat) (c : Z) : list Term :=
  match k with
  | O => []
  | S k' => let '(c', v) := NewVariable c in v :: new_variables k' c'
  end.

(** The class of a term in the standard order of terms: variables,
    then numbers, then atoms, then compounds. *)
Definition rank (t : Term) : Z :=
  match t with
  | Var _ => 0
  | Integer _ | Float _ => 1
  | Atom _ => 2
  | Compound _ _ => 3
  end.

(** The argument loop of [compare_nonvar] on two compounds, named. *)
Definition compare_args (cmp : Term -> Term -> option Z) : list Term -> list Term -> option Z :=
  fix go (l1 l2 : list Term) : option Z :=
    match l1, l2 with
    | x1 :: r1, x2 :: r2 =>
      match cmp x1 x2 with
      | None => None
      | Some 0%Z => go r1 r2
      | Some c => Some c
      end
    | _, _ => Some 0%Z
    end.

(** [generatedPattern = regexp.MustCompile(`\A_\d+\z`)]: an
    underscore followed by one or more ASCII digits, nothing else. *)
Definition is_digit (c : Ascii.ascii) : bool :=
  (48 <=? Ascii.nat_of_ascii c)%nat && (Ascii.nat_of_ascii c <=? 57)%nat.

Fixpoint all_digits (s : string) : bool :=
  match s with
  | EmptyString => true
  | String c s' => is_digit c && all_digits s'
  end.

(** [func (v Variable) Generated() bool]. *)
Definition Generated (v : string) : bool :=
  match v with
  | String (Ascii.Ascii true true true true true false true false) (* "_" *) (String c rest) => is_digit c && all_digits rest
  | _ => false
  end.

End Engine.
(* ================================================================== *)
(** ** The bytecode VM of the [engine] package (part_000) *)
(* ================================================================== *)

Module VM.
Import Engine.

(** [type opcode byte] and its constants. *)
Definition opEnter : N := 0.
Definition opCall : N := 1.
Definition opExit : N := 2.
Definition opConst : N := 3.
Definition opVar : N := 4.
Definition opFunctor : N := 5.
Definition opPop : N := 6.
Definition opCut : N := 7.
Definition _opLen : N := 8.

(** [type instruction struct { opcode opcode; operand byte }]. *)
Record instruction : Type := mkInstruction { opcode : N; operand : N }.

Definition bytecode : Type := list instruction.

(** [type ProcedureIndicator struct { Name Atom; Arity Integer }]. *)
Record ProcedureIndicator : Type := mkPI { PIName : string; PIArity : Z }.

(** [ProcedureIndicator.Term]: [Name/Arity]. *)
Definition PITerm (p : ProcedureIndicator) : Term :=
  Compound "/" [Atom (PIName p); Integer (PIArity p)].

(** [List()] and [Cons(car, cdr)]. *)
Definition List0 : Term := Atom "[]".
Definition Cons (car cdr : Term) : Term := Compound "." [car; cdr].

(** Exceptions carried by an [Error] promise. *)
Inductive PError : Type :=
| existenceErrorProcedure (culprit : Term)
| SystemError (msg : string)
| HostError (msg : string)
| BuiltinError (culprit : Term).

(** The registers of [exec].  [cont] is the same in every round of the
    loop and is the variable [cont] of the section [Exec] below;
    [cutParent] is only passed along and appears in the promises. *)
Record registers : Type := mkRegisters {
  pc : bytecode;
  xr : list Term;
  vars : list string;
  args : Term;
  astack : Term;
  pis : list ProcedureIndicator;
  renv : Env
}.

(** A registered procedure: [predicate0] .. [predicate5] of a given
    arity, named by the built-in it wraps. *)
Record procedure : Type := mkProcedure { procArity : nat; procImpl : string }.

(** [*Promise] values the VM returns; the closures of [Delay] and [Cut]
    are represented by the data they capture. *)
Inductive Promise : Type :=
| Bool (ok : bool)
| Error (e : PError)
(** [Delay(func { return p.Call(vm, args, k, env) })] of [Arrive]. *)
| DelayProcCall (p : procedure) (args : list Term) (env : Env)
(** [Delay(func { ... vm.Arrive(pi, args, ..., env) })] of [execCall]:
    the indicator called and the registers to resume with. *)
| DelayCall (pi : ProcedureIndicator) (r : registers)
(** [Cut(r.cutParent, func { return vm.exec(...) })] of [execCut]. *)
| CutResume (r : registers)
(** Any other promise, built outside the VM loop (by a clause's
    continuation [r.cont] or a built-in), told apart by a tag. *)
| Foreign (tag : nat).

(** [type unknownAction int] and its constants. *)
Definition unknownError : Z := 0.
Definition unknownFail : Z := 1.
Definition unknownWarning : Z := 2.

(** The fields of [VM] that [Arrive] reads. *)
Record VMState : Type := mkVM {
  procedures : gmap (string * Z) procedure;
  unknown : Z
}.

(** [unknownAction.String]: indexing [[_unknownActionLen]string{"error",
    "fail", "warning"}] at [u]; [inr] is the index-out-of-range panic,
    with the Go runtime's message. *)
Definition unknownAction_String (u : Z) : string + string :=
  if Z.eqb u unknownError then inl "error"
  else if Z.eqb u unknownFail then inl "fail"
  else if Z.eqb u unknownWarning then inl "warning"
  else if Z.ltb u 0 then
    inr (String.append "runtime error: index out of range ["
           (String.append (pretty u) "]"))
  else
    inr (String.append "runtime error: index out of range ["
           (String.append (pretty u) "] with length 3")).

(** [fmt]'s [%s] of an [unknownAction]: the [String] result, or, when
    [String] panics, [%!s(PANIC=String method: <panic>)]. *)
Definition fmt_s_unknownAction (u : Z) : string :=
  match unknownAction_String u with
  | inl s => s
  | inr m => String.append "%!s(PANIC=String method: " (String.append m ")")
  end.

(** Calls of the [OnUnknown] callback, in order. *)
Definition trace : Type := list (ProcedureIndicator * list Term * Env).

(** [func (vm *VM) Arrive(pi, args, k, env) *Promise]; the trace records
    each invocation of [vm.OnUnknown] (a no-op when unset). *)
Definition Arrive (vm : VMState) (pi : ProcedureIndicator) (args : list Term)
  (env : Env) (tr : trace) : Promise * trace :=
  match procedures vm !! (PIName pi, PIArity pi) with
  | Some p => (DelayProcCall p args env, tr)
  | None =>
    if Z.eqb (unknown vm) unknownError then
      (Error (existenceErrorProcedure (PITerm pi)), tr)
    else if Z.eqb (unknown vm) unknownWarning then
      (* vm.OnUnknown(pi, args, env); fallthrough *)
      (Bool false, app tr [(pi, args, env)])
    else if Z.eqb (unknown vm) unknownFail then
      (Bool false, tr)
    else
      (Error (SystemError (String.append "unknown unknown: " (fmt_s_unknownAction (unknown vm)))), tr)
  end.

(** Outcome of forcing a built-in inside [execFunctor]:
    [ok, err := Functor(...).Force(ctx)], where the continuation stores
    the environment it receives. *)
Inductive ForceResult : Type :=
| FError (e : PError)
| FFalse
| FTrue (env : Env).

(** What an opcode handler does: continue the loop ([return nil]),
    return a promise, or panic (an index out of range). *)
Inductive StepResult : Type :=
| Next (r : registers) (counter : Z)
| Ret (p : Promise) (counter : Z)
| Panic (msg : string).

(** What [exec] does. *)
Inductive Outcome : Type :=
| Returned (p : Promise) (counter : Z)
| Panicked (msg : string)
| OutOfFuel.

Definition with_pc_args_astack_env (r : registers) (pc' : bytecode) (a s : Term)
  (e : Env) : registers :=
  mkRegisters pc' (xr r) (vars r) a s (pis r) e.

Section Exec.

(** [a.Unify(b, false, env)], [Functor(t, name, arity, k, env).Force]
    and [Univ(t, list, k, env).Force]: code outside part_000, taken as
    arbitrary functions of their inputs (and of the variable counter,
    which they may advance). *)
Variable unify : Env -> Term -> Term -> Env * bool.
Variable functor_force : Term -> string -> Z -> Env -> Z -> Z * ForceResult.
Variable univ_force : Term -> Term -> Env -> Z -> Z * ForceResult.

(** [r.cont]: the clause's continuation, which no handler changes, so
    fixed for a run of [exec]; an arbitrary function of the environment
    (and of the variable counter) to any promise. *)
Variable cont : Env -> Z -> Z * Promise.

Definition oob : string := "index out of range".

(** [execConst]. *)
Definition execConst (r : registers) (c : Z) : StepResult :=
  match pc r with
  | [] => Panic oob
  | i :: rest =>
    match xr r !! N.to_nat (operand i) with
    | None => Panic oob
    | Some x =>
      let '(c1, arest) := NewVariable c in
      let '(env', ok) := unify (renv r) (args r) (Compound "." [x; arest]) in
      if ok then Next (with_pc_args_astack_env r rest arest (astack r) env') c1
      else Ret (Bool false) c1
    end
  end.

(** [execVar]: the receiver of [Unify] is the cons cell. *)
Definition execVar (r : registers) (c : Z) : StepResult :=
  match pc r with
  | [] => Panic oob
  | i :: rest =>
    match vars r !! N.to_nat (operand i) with
    | None => Panic oob
    | Some v =>
      let '(c1, arest) := NewVariable c in
      let '(env', ok) := unify (renv r) (Compound "." [Var v; arest]) (args r) in
      if ok then Next (with_pc_args_astack_env r rest arest (astack r) env') c1
      else Ret (Bool false) c1
    end
  end.

(** [execFunctor]. *)
Definition execFunctor (r : registers) (c : Z) : StepResult :=
  match pc r with
  | [] => Panic oob
  | i :: rest =>
    match pis r !! N.to_nat (operand i) with
    | None => Panic oob
    | Some pi =>
      let '(c1, arg) := NewVariable c in
      let '(c2, arest) := NewVariable c1 in
      let '(env1, ok) := unify (renv r) (args r) (Compound "." [arg; arest]) in
      if negb ok then Ret (Bool false) c2 else
      match functor_force arg (PIName pi) (PIArity pi) env1 c2 with
      | (c3, FError e) => Ret (Error e) c3
      | (c3, FFalse) => Ret (Bool false) c3
      | (c3, FTrue env2) =>
        let '(c4, args') := NewVariable c3 in
        match univ_force arg (Compound "." [Atom (PIName pi); args']) env2 c4 with
        | (c5, FError e) => Ret (Error e) c5
        | (c5, FFalse) => Ret (Bool false) c5
        | (c5, FTrue env3) =>
          Next (with_pc_args_astack_env r rest args' (Cons arest (astack r)) env3) c5
        end
      end
    end
  end.

(** [execPop]. *)
Definition execPop (r : registers) (c : Z) : StepResult :=
  match pc r with
  | [] => Panic oob
  | _ :: rest =>
    let '(env1, ok) := unify (renv r) (args r) List0 in
    if negb ok then Ret (Bool false) c else
    let '(c1, a) := NewVariable c in
    let '(c2, arest) := NewVariable c1 in
    let '(env2, ok2) := unify env1 (astack r) (Compound "." [a; arest]) in
    if negb ok2 then Ret (Bool false) c2 else
    Next (with_pc_args_astack_env r rest a arest env2) c2
  end.

(** [execEnter]. *)
Definition execEnter (r : registers) (c : Z) : StepResult :=
  match pc r with
  | [] => Panic oob
  | _ :: rest =>
    let '(env1, ok) := unify (renv r) (args r) List0 in
    if negb ok then Ret (Bool false) c else
    let '(env2, ok2) := unify env1 (astack r) List0 in
    if negb ok2 then Ret (Bool false) c else
    let '(c1, v) := NewVariable c in
    Next (with_pc_args_astack_env r rest v v env2) c1
  end.

(** [execCall]: the rest of the clause is resumed from the [Delay]. *)
Definition execCall (r : registers) (c : Z) : StepResult :=
  match pc r with
  | [] => Panic oob
  | i :: rest =>
    match pis r !! N.to_nat (operand i) with
    | None => Panic oob
    | Some pi =>
      let '(env1, ok) := unify (renv r) (args r) List0 in
      if negb ok then Ret (Bool false) c else
      Ret (DelayCall pi (with_pc_args_astack_env r rest (args r) (astack r) env1)) c
    end
  end.

(** [execExit]: [return r.cont(r.env)]. *)
Definition execExit (r : registers) (c : Z) : StepResult :=
  let '(c', p) := cont (renv r) c in Ret p c'.

(** [execCut]. *)
Definition execCut (r : registers) (c : Z) : StepResult :=
  match pc r with
  | [] => Panic oob
  | _ :: rest => Ret (CutResume (with_pc_args_astack_env r rest (args r) (astack r) (renv r))) c
  end.

(** [jumpTable := [_opLen]func(r *registers) *Promise{...}]: indexing
    it at [opcode >= _opLen] is out of range. *)
Definition jumpTable (o : N) : option (registers -> Z -> StepResult) :=
  if N.eqb o opConst then Some execConst
  else if N.eqb o opVar then Some execVar
  else if N.eqb o opFunctor then Some execFunctor
  else if N.eqb o opPop then Some execPop
  else if N.eqb o opEnter then Some execEnter
  else if N.eqb o opCall then Some execCall
  else if N.eqb o opExit then Some execExit
  else if N.eqb o opCut then Some execCut
  else None.

(** The loop of [func (vm *VM) exec(r registers) *Promise]. *)
Fixpoint exec_go (fuel : nat) (r : registers) (c : Z) : Outcome :=
  match fuel with
  | O => OutOfFuel
  | S n =>
    match pc r with
    | [] => Returned (Error (HostError "non-exit end of bytecode")) c
    | i :: _ =>
      match jumpTable (opcode i) with
      | None => Panicked oob
      | Some op =>
        match op r c with
        | Ret p c' => Returned p c'
        | Next r' c' => exec_go n r' c'
        | Panic m => Panicked m
        end
      end
    end
  end.

(** Every handler that returns [nil] has consumed an instruction, so
    [length pc + 1] rounds bound the loop. *)
Definition exec (r : registers) (c : Z) : Outcome :=
  exec_go (S (length (pc r))) r c.

(** The rounds of the loop in which the handler returned [nil]: from
    [r] and [c], the loop reaches [r'] and [c']. *)
Inductive steps : registers -> Z -> registers -> Z -> Prop :=
| steps_refl r c : steps r c r c
| steps_next r c i rest op r1 c1 r2 c2 :
    pc r = i :: rest -> jumpTable (opcode i) = Some op -> op r c = Next r1 c1 ->
    steps r1 c1 r2 c2 -> steps r c r2 c2.

End Exec.

(** An instruction whose operand indexes the table its opcode reads. *)
Definition wf_instruction (r : registers) (i : instruction) : Prop :=
  if N.eqb (opcode i) opConst then (N.to_nat (operand i) < length (xr r))%nat
  else if N.eqb (opcode i) opVar then (N.to_nat (operand i) < length (vars r))%nat
  else if N.eqb (opcode i) opFunctor then (N.to_nat (operand i) < length (pis r))%nat
  else if N.eqb (opcode i) opCall then (N.to_nat (operand i) < length (pis r))%nat
  else (opcode i < _opLen)%N.

(** [Register0] .. [Register5]: [vm.procedures[ProcedureIndicator{Name:
    Atom(name), Arity: k}] = predicatek(p)], the table created when
    nil (an empty [gmap]); [impl] names [p]. *)
Definition Register (k : nat) (name : string) (impl : string) (vm : VMState) : VMState :=
  mkVM (<[(name, Z.of_nat k) := mkProcedure k impl]> (procedures vm)) (unknown vm).

(** What [predicatek.Call] does: an error when [len(args) != k]
    ([predicate1] formats [args] into its message), otherwise
    [p(args[0], .., args[k-1], k, env)]. *)
Inductive CallResult : Type :=
| CallError (msg : string) (detail : option (list Term))
| Invoked (impl : string) (args : list Term) (env : Env).

Definition Call (p : procedure) (args : list Term) (env : Env) : CallResult :=
  if Nat.eqb (length args) (procArity p) then Invoked (procImpl p) args env
  else CallError "wrong number of arguments"
         (if Nat.eqb (procArity p) 1 then Some args else None).

(** Errors of [NewProcedureIndicator]. *)
Inductive PIError : Type :=
| PIInstantiationError (culprit : Term)
| TypeErrorPredicateIndicator (culprit : Term).

(** [func NewProcedureIndicator(pi Term, env *Env) (ProcedureIndicator, error)]. *)
Definition NewProcedureIndicator (pi : Term) (env : Env) : PIError + ProcedureIndicator :=
  match Resolve env pi with
  | Var _ => inl (PIInstantiationError pi)
  | Compound f args =>
    if negb (String.eqb f "/") || negb (Nat.eqb (length args) 2) then
      inl (TypeErrorPredicateIndicator pi)
    else
      match args with
      | [a0; a1] =>
        match Resolve env a0 with
        | Var _ => inl (PIInstantiationError pi)
        | Atom f =>
          match Resolve env a1 with
          | Var _ => inl (PIInstantiationError pi)
          | Integer a => inr (mkPI f a)
          | _ => inl (TypeErrorPredicateIndicator pi)
          end
        | _ => inl (TypeErrorPredicateIndicator pi)
        end
      | _ => inl (TypeErrorPredicateIndicator pi) (* not reached: two arguments *)
      end
  | _ => inl (TypeErrorPredicateIndicator pi)
  end.

End VM.

(* ================================================================== *)
(** ** Arithmetic evaluation *)
(* ================================================================== *)

Module Arith.
Import Engine.

(** ISO error terms raised by evaluation. *)
Inductive EvalError : Type :=
| instantiation_error
| type_error_evaluable (name : string) (arity : Z)
| type_error_integer (culprit : Term)
| evaluation_error_zero_divisor.

Definition is_zero_number (t : Term) : bool :=
  match t with
  | Integer i => Z.eqb i 0
  | Float f => PrimFloat.is_zero f
  | _ => false
  end.

Definition to_float (t : Term) : PrimFloat.float :=
  match t with
  | Integer i => float_of_Z i
  | Float f => f
  | _ => PrimFloat.zero
  end.

(** A binary operation on two evaluated numbers: Float if either
    operand is a Float. *)
Definition promote (fi : Z -> Z -> Z) (ff : PrimFloat.float -> PrimFloat.float -> PrimFloat.float)
  (x y : Term) : Term :=
  match x, y with
  | Integer i, Integer j => Integer (fi i j)
  | _, _ => Float (ff (to_float x) (to_float y))
  end.

(** Modelled from the spec: the arithmetic evaluator of section 4.G
    ([FunctionSet], absent from src) for [+], [-], [*], [/], [//] and
    unary [-]: the expression is resolved, its arguments evaluated left
    to right depth first; an unbound variable raises
    [instantiation_error]; [/] on any numbers is floating-point division
    (as [4/2] evaluating to [2.0] in [TestFunctionSet_Is]); [//]
    requires integers ([type_error(integer, X)]) and truncates; a zero
    divisor raises [evaluation_error(zero_divisor)]; any other functor
    raises [type_error(evaluable, F/N)]. *)
Fixpoint eval (fuel : nat) (env : Env) (t : Term) : option (EvalError + Term) :=
  match fuel with
  | O => None
  | S n =>
    match Resolve env t with
    | Var _ => Some (inl instantiation_error)
    | Integer i => Some (inr (Integer i))
    | Float f => Some (inr (Float f))
    | Atom a => Some (inl (type_error_evaluable a 0))
    | Compound "-" [x] =>
      match eval n env x with
      | Some (inr (Integer i)) => Some (inr (Integer (- i)))
      | Some (inr (Float f)) => Some (inr (Float (PrimFloat.opp f)))
      | r => r
      end
    | Compound f [x; y] =>
      match eval n env x with
      | Some (inr vx) =>
        match eval n env y with
        | Some (inr vy) =>
          if String.eqb f "+" then Some (inr (promote Z.add PrimFloat.add vx vy))
          else if String.eqb f "-" then Some (inr (promote Z.sub PrimFloat.sub vx vy))
          else if String.eqb f "*" then Some (inr (promote Z.mul PrimFloat.mul vx vy))
          else if String.eqb f "/" then
            if is_zero_number vy then Some (inl evaluation_error_zero_divisor)
            else Some (inr (Float (PrimFloat.div (to_float vx) (to_float vy))))
          else if String.eqb f "//" then
            match vx, vy with
            | Integer i, Integer j =>
              if Z.eqb j 0 then Some (inl evaluation_error_zero_divisor)
              else Some (inr (Integer (Z.quot i j)))
            | Integer _, _ => Some (inl (type_error_integer vy))
            | _, _ => Some (inl (type_error_integer vx))
            end
          else Some (inl (type_error_evaluable f 2))
        | r => r
        end
      | r => r
      end
    | Compound f args => Some (inl (type_error_evaluable f (Z.of_nat (length args))))
    end
  end.

(** [Is(result, expression, k, env)]: evaluate, then unify the value
    with the left-hand side. *)
Inductive IsResult : Type :=
| IsError (e : EvalError)
| IsUnified (env : Env) (ok : bool).

Definition Is (fuel : nat) (env : Env) (lhs rhs : Term) : option IsResult :=
  match eval fuel env rhs with
  | None => None
  | Some (inl e) => Some (IsError e)
  | Some (inr v) =>
    match Unify fuel env lhs v false with
    | None => None
    | Some (env', ok) => Some (IsUnified env' ok)
    end
  end.

End Arith.

(* ================================================================== *)
(** ** The clause database *)
(* ================================================================== *)

Module DB.
Import Engine.
Import VM.

Inductive DBError : Type :=
| InstantiationError (culprit : Term)
| TypeErrorCallable (culprit : Term)
| PermissionErrorModifyStaticProcedure (culprit : Term).

(** [piArgs(t, env)] of part_000: the indicator and arguments of a
    callable term. *)
Definition piArgs (t : Term) (env : Env) : DBError + (ProcedureIndicator * list Term) :=
  match Resolve env t with
  | Var _ => inl (InstantiationError t)
  | Atom f => inr (mkPI f 0, [])
  | Compound f args => inr (mkPI f (Z.of_nat (length args)), args)
  | _ => inl (TypeErrorCallable t)
  end.

(** Modelled from the spec: the clause database of sections 3 and 4.D
    (absent from src).  A procedure is a built-in or an ordered list of
    user clauses [(head, body)] with its dynamic flag. *)
Inductive Procedure : Type :=
| BuiltIn (impl : string)
| UserDefined (dynamic : bool) (clauses : list (Term * Term)).

Definition Database : Type := gmap (string * Z) Procedure.

Definition key (pi : ProcedureIndicator) : string * Z := (PIName pi, PIArity pi).

(** A clause term [Head :- Body], or a fact [Head] with body [true]. *)
Definition split_clause (env : Env) (t : Term) : Term * Term :=
  match Resolve env t with
  | Compound ":-" [h; b] => (h, b)
  | t' => (t', Atom "true")
  end.

(** The common part of [assertz] and [asserta]: [add] puts the clause
    into the existing clause list. *)
Definition assert_with (add : Term * Term -> list (Term * Term) -> list (Term * Term))
  (env : Env) (t : Term) (db : Database) : DBError + Database :=
  let '(h, b) := split_clause env t in
  match piArgs h env with
  | inl e => inl e
  | inr (pi, _) =>
    match db !! key pi with
    | Some (BuiltIn _) | Some (UserDefined false _) =>
      inl (PermissionErrorModifyStaticProcedure (PITerm pi))
    | Some (UserDefined true cs) => inr (<[key pi := UserDefined true (add (h, b) cs)]> db)
    | None => inr (<[key pi := UserDefined true (add (h, b) [])]> db)
    end
  end.

(** [assertz]: append. *)
Definition Assertz : Env -> Term -> Database -> DBError + Database :=
  assert_with (fun c cs => cs ++ [c]).

(** [asserta]: prepend. *)
Definition Asserta : Env -> Term -> Database -> DBError + Database :=
  assert_with (fun c cs => c :: cs).

(** The user clauses of the procedure a goal calls. *)
Definition clauses_of (db : Database) (env : Env) (goal : Term) : list (Term * Term) :=
  match piArgs goal env with
  | inr (pi, _) =>
    match db !! key pi with
    | Some (UserDefined _ cs) => cs
    | _ => []
    end
  | inl _ => []
  end.

(** The answers a goal gets from a list of facts, in clause order:
    the environment each successful head unification produces. *)
Definition fact_answers (fuel : nat) (env : Env) (goal : Term) (cs : list (Term * Term)) : list Env :=
  omap (fun '(h, b) =>
          match b with
          | Atom "true" =>
            match Unify fuel env goal h false with
            | Some (env', true) => Some env'
            | _ => None
            end
          | _ => None
          end) cs.

(** Solutions of a goal from the facts of its procedure. *)
Definition solutions (fuel : nat) (db : Database) (env : Env) (goal : Term) : list Env :=
  fact_answers fuel env goal (clauses_of db env goal).

End DB.

(* ================================================================== *)
(** ** Operators of the parser (engine/parser.go) *)
(* ================================================================== *)

Module Parser.

(** [type OperatorSpecifier uint8] and its constants. *)
Definition OperatorSpecifierNone : N := 0.
Definition OperatorSpecifierFX : N := 1.
Definition OperatorSpecifierFY : N := 2.
Definition OperatorSpecifierXF : N := 3.
Definition OperatorSpecifierYF : N := 4.
Definition OperatorSpecifierXFX : N := 5.
Definition OperatorSpecifierXFY : N := 6.
Definition OperatorSpecifierYFX : N := 7.

(** [type Operator struct { Priority Integer; Specifier OperatorSpecifier; Name Atom }]. *)
Record Operator : Type := mkOperator { Priority : Z; Specifier : N; Name : string }.

(** Go's [int] arithmetic (64 bits): wrap-around into
    [[-2^63, 2^63)]. *)
Definition wrap_int (z : Z) : Z := (Z.modulo (z + 2 ^ 63) (2 ^ 64) - 2 ^ 63)%Z.

(** [func (o *Operator) bindingPowers() (int, int)]: [bp := 1201 -
    int(o.Priority)] and [bp + 1] in [int] arithmetic. *)
Definition bindingPowers (o : Operator) : Z * Z :=
  let bp := wrap_int (1201 - Priority o) in
  if N.eqb (Specifier o) OperatorSpecifierFX then (0, wrap_int (bp + 1))%Z
  else if N.eqb (Specifier o) OperatorSpecifierFY then (0, bp)%Z
  else if N.eqb (Specifier o) OperatorSpecifierXF then (wrap_int (bp + 1), 0)%Z
  else if N.eqb (Specifier o) OperatorSpecifierYF then (bp, -1)%Z
  else if N.eqb (Specifier o) OperatorSpecifierXFX then (wrap_int (bp + 1), wrap_int (bp + 1))%Z
  else if N.eqb (Specifier o) OperatorSpecifierXFY then (wrap_int (bp + 1), bp)%Z
  else if N.eqb (Specifier o) OperatorSpecifierYFX then (bp, wrap_int (bp + 1))%Z
  else (0, 0)%Z.

(** [func (p *Parser) acceptOp(min int, allowComma, allowBar bool)
    ( *Operator, error)]: the first operator of the table whose left
    binding power is at least [min] and whose name the current token
    is accepted as ([p.acceptAtom(allowComma, allowBar, string(op.Name))],
    the [accepts] argument); [None] for the error ["no op"]. *)
Definition acceptOp (ops : list Operator) (min : Z) (accepts : string -> bool) : option Operator :=
  find (fun op => (min <=? fst (bindingPowers op))%Z && accepts (Name op)) ops.

(** A prefix specifier. *)
Definition is_prefix (s : N) : bool :=
  N.eqb s OperatorSpecifierFX || N.eqb s OperatorSpecifierFY.

(** An infix specifier. *)
Definition is_infix (s : N) : bool :=
  N.eqb s OperatorSpecifierXFX || N.eqb s OperatorSpecifierXFY || N.eqb s OperatorSpecifierYFX.

End Parser.

(* ================================================================== *)
(** * Properties *)
(* ================================================================== *)

Module PtrTermFacts.
Import PtrTerm.

Lemma Copy_Compound n h f args :
  Copy (S n) h (Compound f args) =
  match copy_args n h args with
  | None => None
  | Some (h', args') => Some (h', Compound f args')
  end.
Proof. reflexivity. Qed.

Lemma shape_Compound n h f args :
  shape (S n) h (Compound f args) =
  match shape_args n h args with None => None | Some ss => Some (SCompound f ss) end.
Proof. reflexivity. Qed.

Lemma uvars_Compound n h f args :
  uvars (S n) h (Compound f args) = uvars_args n h args.
Proof. reflexivity. Qed.

Lemma Unify_Compound n h f args g targs oc :
  Unify (S n) h (Compound f args) (Compound g targs) oc =
  if negb (String.eqb f g) then Some (h, false) else
  if negb (Nat.eqb (length args) (length targs)) then Some (h, false) else
  unify_args n oc h args targs.
Proof. reflexivity. Qed.

Lemma unify_args_true n oc l1 : forall h l2 h',
  length l1 = length l2 ->
  unify_args n oc h l1 l2 = Some (h', true) <-> args_unified n oc h l1 l2 h'.
Proof.
  induction l1 as [|a l1 IH]; intros h l2 h' Hlen; destruct l2 as [|b l2];
    simpl in Hlen; try discriminate.
  - split; intros H.
    + injection H as <-. constructor.
    + inversion H; subst. reflexivity.
  - injection Hlen as Hlen. simpl. split; intros H.
    + destruct (Unify n h a b oc) as [[h1 [|]]|] eqn:E; try discriminate.
      econstructor; [exact E|]. apply IH; assumption.
    + inversion H as [|? h1 ? ? ? ? ? HU Hrest]; subst. rewrite HU. apply IH; assumption.
Qed.

Lemma Unify_loop_heap k :
  Unify k loop_heap (Var 0) (Var 0) false = None /\
  Unify k loop_heap (Compound "g" [Var 0]) (Var 0) false = None /\
  Unify k loop_heap (Var 0) (Compound "g" [Var 0]) false = None /\
  Unify k loop_heap (Compound "g" [Var 0]) (Compound "g" [Var 0]) false = None.
Proof.
  induction k as [|k [IH1 [IH2 [IH3 IH4]]]].
  - repeat split; reflexivity.
  - repeat split; simpl.
    + exact IH2.
    + exact IH3.
    + exact IH4.
    + rewrite IH1. reflexivity.
Qed.

Lemma Unify_diverges n :
  Unify n [mkVariable "X" None] (Compound "f" [Var 0; Var 0])
        (Compound "f" [Compound "g" [Var 0]; Var 0]) false = None.
Proof.
  destruct n as [|[|m]]; try reflexivity.
  rewrite Unify_Compound. simpl.
  change (set_ref 0 (Some (Compound "g" [Var 0])) [mkVariable "X" None]) with loop_heap.
  destruct (Unify_loop_heap m) as [_ [-> _]]. reflexivity.
Qed.

(** Induction on terms through the argument lists of compounds. *)
Lemma Term_ind' (P : Term -> Prop)
  (HA : forall a, P (Atom a)) (HI : forall i, P (Integer i)) (HV : forall p, P (Var p))
  (HC : forall f args, Forall P args -> P (Compound f args)) : forall t, P t.
Proof.
  fix IH 1. intros [a|i|p|f args]; [apply HA|apply HI|apply HV|].
  apply HC. induction args as [|a l IHl]; constructor; [apply IH|exact IHl].
Qed.

Lemma addrs_lt_Compound k f args :
  addrs_lt k (Compound f args) <-> Forall (addrs_lt k) args.
Proof.
  simpl. induction args as [|a l IH].
  - split; constructor.
  - rewrite Forall_cons. rewrite IH. reflexivity.
Qed.

Lemma addrs_lt_mono k k' t : k <= k' -> addrs_lt k t -> addrs_lt k' t.
Proof.
  intros Hk. induction t as [a|i|p|f args IH] using Term_ind'; intros H; try exact I.
  - simpl in *; lia.
  - apply addrs_lt_Compound. apply addrs_lt_Compound in H.
    rewrite Forall_forall in *. intros x Hx. apply IH; auto.
Qed.

Lemma copy_args_cons n h a l :
  copy_args n h (a :: l) =
  match Copy n h a with
  | None => None
  | Some (h1, a1) =>
    match copy_args n h1 l with None => None | Some (h2, l2) => Some (h2, a1 :: l2) end
  end.
Proof. reflexivity. Qed.

Lemma shape_Var n h p :
  shape (S n) h (Var p) =
  match h !! p with
  | None => None
  | Some v => match Ref v with None => Some SVar | Some r => shape n h r end
  end.
Proof. reflexivity. Qed.

Lemma uvars_Var n h p :
  uvars (S n) h (Var p) =
  match h !! p with
  | None => None
  | Some v => match Ref v with None => Some [p] | Some r => uvars n h r end
  end.
Proof. reflexivity. Qed.

Lemma Copy_Var n h p :
  Copy (S n) h (Var p) =
  match h !! p with
  | None => None
  | Some v =>
    match Ref v with
    | None => Some (alloc h None)
    | Some r => match Copy n h r with None => None | Some (h1, r1) => Some (alloc h1 (Some r1)) end
    end
  end.
Proof. reflexivity. Qed.

Lemma shape_args_cons n h a l :
  shape_args n h (a :: l) =
  match shape n h a, shape_args n h l with Some s, Some ss => Some (s :: ss) | _, _ => None end.
Proof. reflexivity. Qed.

Lemma uvars_args_cons n h a l :
  uvars_args n h (a :: l) =
  match uvars n h a, uvars_args n h l with Some s, Some ss => Some (app s ss) | _, _ => None end.
Proof. reflexivity. Qed.

(** Extending the heap keeps every successful observation. *)
Lemma shape_ext n : forall h e t s, shape n h t = Some s -> shape n (h ++ e) t = Some s.
Proof.
  induction n as [|n IHn]; intros h e t s H; [discriminate|].
  destruct t as [a|i|p|f args]; try exact H.
  - simpl in *. destruct (h !! p) as [v|] eqn:E; [|discriminate].
    rewrite (lookup_app_l_Some _ _ _ _ E). destruct (Ref v); [apply IHn|]; exact H.
  - rewrite shape_Compound in *. destruct (shape_args n h args) as [ss|] eqn:E; [|discriminate].
    assert (shape_args n (h ++ e) args = Some ss) as ->; [|exact H].
    clear H. revert ss E. induction args as [|a l IHl]; intros ss E; [exact E|].
    rewrite shape_args_cons in *.
    destruct (shape n h a) as [sa|] eqn:Ea; [|discriminate].
    destruct (shape_args n h l) as [sl|] eqn:El; [|discriminate].
    rewrite (IHn _ _ _ _ Ea), (IHl _ eq_refl). exact E.
Qed.

Lemma uvars_ext n : forall h e t vs, uvars n h t = Some vs -> uvars n (h ++ e) t = Some vs.
Proof.
  induction n as [|n IHn]; intros h e t vs H; [discriminate|].
  destruct t as [a|i|p|f args]; try exact H.
  - simpl in *. destruct (h !! p) as [v|] eqn:E; [|discriminate].
    rewrite (lookup_app_l_Some _ _ _ _ E). destruct (Ref v); [apply IHn|]; exact H.
  - rewrite uvars_Compound in *. revert vs H.
    induction args as [|a l IHl]; intros vs H; [exact H|].
    rewrite uvars_args_cons in *.
    destruct (uvars n h a) as [sa|] eqn:Ea; [|discriminate].
    destruct (uvars_args n h l) as [sl|] eqn:El; [|discriminate].
    rewrite (IHn _ _ _ _ Ea), (IHl _ eq_refl). exact H.
Qed.

(** The unbound variables reached are cells of the heap. *)
Lemma uvars_lt n : forall h t vs, uvars n h t = Some vs -> Forall (fun w => w < length h) vs.
Proof.
  induction n as [|n IHn]; intros h t vs H; [discriminate|].
  destruct t as [a|i|p|f args]; try (injection H as <-; constructor).
  - simpl in H. destruct (h !! p) as [v|] eqn:E; [|discriminate].
    destruct (Ref v); [eapply IHn; exact H|].
    injection H as <-. constructor; [|constructor]. eapply lookup_lt_Some; exact E.
  - rewrite uvars_Compound in H. revert vs H.
    induction args as [|a l IHl]; intros vs H; [injection H as <-; constructor|].
    rewrite uvars_args_cons in H.
    destruct (uvars n h a) as [sa|] eqn:Ea; [|discriminate].
    destruct (uvars_args n h l) as [sl|] eqn:El; [|discriminate].
    injection H as <-. apply Forall_app. split; [eapply IHn; exact Ea|apply IHl; reflexivity].
Qed.

(** On a heap without dangling pointers, the shape of a term whose
    addresses are in the heap does not see an extension. *)
Lemma shape_ext_eq n : forall h e t,
  wf_heap h -> addrs_lt (length h) t -> shape n (h ++ e) t = shape n h t.
Proof.
  induction n as [|n IHn]; intros h e t Hwf Ht; [reflexivity|].
  destruct t as [a|i|p|f args]; try reflexivity.
  - rewrite !shape_Var. simpl in Ht. destruct (h !! p) as [v|] eqn:E.
    2:{ apply lookup_lt_is_Some_2 in Ht. rewrite E in Ht. destruct Ht; discriminate. }
    rewrite (lookup_app_l_Some _ _ _ _ E).
    destruct (Ref v) as [r|] eqn:Er; [|reflexivity].
    apply IHn; [exact Hwf|]. eapply Hwf; eassumption.
  - rewrite !shape_Compound. apply addrs_lt_Compound in Ht.
    assert (shape_args n (h ++ e) args = shape_args n h args) as ->; [|reflexivity].
    induction Ht as [|a l Ha Hl IHl]; [reflexivity|].
    rewrite !shape_args_cons, IHl, IHn by assumption. reflexivity.
Qed.

Lemma shape_args_ext_eq n h e l :
  wf_heap h -> Forall (addrs_lt (length h)) l -> shape_args n (h ++ e) l = shape_args n h l.
Proof.
  intros Hwf Hl. induction Hl as [|a l Ha Hl IHl]; [reflexivity|].
  rewrite !shape_args_cons, IHl, shape_ext_eq by assumption. reflexivity.
Qed.

Lemma wf_heap_alloc h r :
  wf_heap h -> (forall r', r = Some r' -> addrs_lt (S (length h)) r') ->
  wf_heap (h ++ [mkVariable "" r]).
Proof.
  intros Hwf Hr p v r0 Hp Hv. rewrite length_app. simpl.
  apply lookup_app_Some in Hp as [Hp|[_ Hp]].
  - eapply addrs_lt_mono; [|eapply Hwf; eassumption]. lia.
  - apply list_lookup_singleton_Some in Hp as [_ <-]. simpl in Hv.
    replace (length h + 1) with (S (length h)) by lia. apply Hr. exact Hv.
Qed.

Lemma lookup_alloc (h : heap) c : (h ++ [c]) !! length h = Some c.
Proof. rewrite lookup_app_r by lia. rewrite Nat.sub_diag. reflexivity. Qed.

(** What [Copy] establishes, by induction on the fuel: the heap is only
    extended and stays without dangling pointers, the copy has the shape
    of the original, and its unbound variables are distinct fresh cells,
    one per occurrence. *)
Lemma Copy_inv n : forall h t h' t',
  wf_heap h -> addrs_lt (length h) t -> Copy n h t = Some (h', t') ->
  (exists e, h' = h ++ e) /\ wf_heap h' /\ addrs_lt (length h') t' /\
  (exists s, shape n h t = Some s /\ shape n h' t' = Some s) /\
  (exists vs, uvars n h' t' = Some vs /\ NoDup vs /\ Forall (fun w => length h <= w) vs).
Proof.
  induction n as [|n IHn]; intros h t h' t' Hwf Ht HC; [discriminate|].
  destruct t as [a|i|p|f args].
  1,2: injection HC as <- <-;
    split; [exists []; symmetry; apply app_nil_r|];
    split; [exact Hwf|]; split; [exact I|];
    split; [eexists; split; reflexivity|];
    exists []; split; [reflexivity|]; split; constructor.
  - rewrite Copy_Var in HC. destruct (h !! p) as [v|] eqn:E; [|discriminate].
    destruct (Ref v) as [r|] eqn:Er.
    + destruct (Copy n h r) as [[h1 r1]|] eqn:Ec; [|discriminate].
      unfold alloc in HC. injection HC as <- <-.
      assert (Hr : addrs_lt (length h) r) by (eapply Hwf; eassumption).
      destruct (IHn _ _ _ _ Hwf Hr Ec)
        as ([e1 ->] & Hwf1 & Hr1 & (s & Hs & Hs1) & (vs & Hvs & Hnd & Hge)).
      split; [exists (e1 ++ [mkVariable "" (Some r1)]); symmetry; apply app_assoc|].
      split.
      { apply wf_heap_alloc; [exact Hwf1|]. intros r' [= <-].
        eapply addrs_lt_mono; [|exact Hr1]. lia. }
      split; [simpl; rewrite !length_app; simpl; lia|].
      split.
      { exists s. split; [rewrite shape_Var, E, Er; exact Hs|].
        rewrite shape_Var, lookup_alloc. simpl. apply shape_ext. exact Hs1. }
      exists vs. split; [|split; assumption].
      rewrite uvars_Var, lookup_alloc. simpl. apply uvars_ext. exact Hvs.
    + unfold alloc in HC. injection HC as <- <-.
      split; [exists [mkVariable "" None]; reflexivity|].
      split; [apply wf_heap_alloc; [exact Hwf|]; intros r' [=]|].
      split; [simpl; rewrite !length_app; simpl; lia|].
      split.
      { exists SVar. split; [rewrite shape_Var, E, Er; reflexivity|].
        rewrite shape_Var, lookup_alloc. reflexivity. }
      exists [length h]. split; [rewrite uvars_Var, lookup_alloc; reflexivity|].
      split; [apply NoDup_singleton|]. constructor; [lia|constructor].
  - rewrite Copy_Compound in HC.
    destruct (copy_args n h args) as [[h1 args1]|] eqn:Ec; [|discriminate].
    injection HC as <- <-. apply addrs_lt_Compound in Ht.
    assert (L : forall args h h' args', wf_heap h -> Forall (addrs_lt (length h)) args ->
      copy_args n h args = Some (h', args') ->
      (exists e, h' = h ++ e) /\ wf_heap h' /\ Forall (addrs_lt (length h')) args' /\
      (exists ss, shape_args n h args = Some ss /\ shape_args n h' args' = Some ss) /\
      (exists vs, uvars_args n h' args' = Some vs /\ NoDup vs /\
                  Forall (fun w => length h <= w) vs)).
    { clear - IHn. intros args. induction args as [|a l IHl]; intros h h' args' Hwf Hl HC.
      - simpl in HC. injection HC as <- <-.
        split; [exists []; symmetry; apply app_nil_r|].
        split; [exact Hwf|]. split; [constructor|].
        split; [exists []; split; reflexivity|].
        exists []. split; [reflexivity|]. split; constructor.
      - rewrite copy_args_cons in HC.
        destruct (Copy n h a) as [[h1 a1]|] eqn:Ea; [|discriminate].
        destruct (copy_args n h1 l) as [[h2 l2]|] eqn:El; [|discriminate].
        injection HC as <- <-. apply Forall_cons in Hl as [Ha Hl].
        destruct (IHn _ _ _ _ Hwf Ha Ea)
          as ([e1 ->] & Hwf1 & Ha1 & (s & Hs & Hs1) & (vs1 & Hv1 & Hnd1 & Hge1)).
        assert (Hl1 : Forall (addrs_lt (length (h ++ e1))) l).
        { eapply Forall_impl; [exact Hl|]. intros x. apply addrs_lt_mono.
          rewrite length_app. lia. }
        destruct (IHl _ _ _ Hwf1 Hl1 El)
          as ([e2 ->] & Hwf2 & Hl2 & (ss & Hss & Hss2) & (vs2 & Hv2 & Hnd2 & Hge2)).
        split; [exists (e1 ++ e2); symmetry; apply app_assoc|].
        split; [exact Hwf2|].
        split.
        { constructor; [|exact Hl2]. eapply addrs_lt_mono; [|exact Ha1].
          rewrite !length_app. lia. }
        split.
        { exists (s :: ss). rewrite !shape_args_cons, Hs.
          rewrite <- (shape_args_ext_eq n h e1 l Hwf Hl), Hss.
          rewrite (shape_ext _ _ _ _ _ Hs1), Hss2. split; reflexivity. }
        exists (vs1 ++ vs2). rewrite uvars_args_cons, (uvars_ext _ _ _ _ _ Hv1), Hv2.
        split; [reflexivity|]. split.
        + apply NoDup_app. split; [exact Hnd1|]. split; [|exact Hnd2].
          intros x Hx1 Hx2. pose proof (uvars_lt _ _ _ _ Hv1) as Hlt.
          rewrite Forall_forall in Hlt, Hge2.
          specialize (Hlt x Hx1). specialize (Hge2 x Hx2). lia.
        + apply Forall_app. split; [exact Hge1|].
          eapply Forall_impl; [exact Hge2|]. intros x. rewrite !length_app. lia. }
    destruct (L _ _ _ _ Hwf Ht Ec)
      as (He & Hwf1 & Hl1 & (ss & Hss & Hss1) & (vs & Hv & Hnd & Hge)).
    split; [exact He|]. split; [exact Hwf1|].
    split; [apply addrs_lt_Compound; exact Hl1|].
    split; [exists (SCompound f ss); rewrite !shape_Compound, Hss, Hss1; split; reflexivity|].
    exists vs. rewrite uvars_Compound. split; [exact Hv|]. split; assumption.
Qed.

(** ** Claims on the pointer-based terms of term.go *)

(** C1 (occurs check on a variable against itself): in term.go,
    [Variable.Unify] runs [Contains(t, v)] before anything else and
    [Contains] answers true for [t == s], so
    [unify_with_occurs_check(X, X)] fails: for every heap and every
    variable, unifying the variable with itself under the occurs check
    returns false and leaves the heap unchanged. *)
Theorem unify_with_occurs_check_self_fails (n : nat) (h : heap) (p : nat) :
  Unify (S (S n)) h (Var p) (Var p) true = Some (h, false).
Proof. cbn [Unify Contains is_var_at]. rewrite Nat.eqb_refl. reflexivity. Qed.

(** C2, counterexample: copying [f(X,X)] with [X] unbound yields
    [f(_1,_2)] over two distinct new cells; no renaming of addresses
    maps [f(X,X)] to it, so sharing is not preserved. *)
Lemma copy_term_sharing_counterexample :
  Copy 3 [mkVariable "X" None] (Compound "f" [Var 0; Var 0]) =
    Some ([mkVariable "X" None; mkVariable "" None; mkVariable "" None],
          Compound "f" [Var 1; Var 2]) /\
  ~ (exists m, Compound "f" [Var 1; Var 2] = rename m (Compound "f" [Var 0; Var 0])).
Proof.
  split; [reflexivity|]. intros [m Hm]. simpl in Hm.
  injection Hm as H1 H2. congruence.
Qed.

(** C2, amended: on a heap without dangling pointers, [Copy] only
    extends the heap, produces a term of the same shape (bound variables
    followed, unbound ones as [SVar]), and every unbound-variable
    occurrence of the copy is its own newly allocated cell: the unbound
    variables reached in the copy, one entry per occurrence, are pairwise
    distinct and all beyond the old heap. *)
Theorem copy_term_fresh_per_occurrence (n : nat) (h : heap) (t : Term) (h' : heap) (t' : Term) :
  wf_heap h -> addrs_lt (length h) t -> Copy n h t = Some (h', t') ->
  (exists e, h' = h ++ e) /\
  (exists s, shape n h t = Some s /\ shape n h' t' = Some s) /\
  (exists vs, uvars n h' t' = Some vs /\ NoDup vs /\ Forall (fun w => length h <= w) vs).
Proof.
  intros Hwf Ht HC.
  destruct (Copy_inv n h t h' t' Hwf Ht HC) as (He & _ & _ & Hs & Hv).
  split; [exact He|]. split; [exact Hs|exact Hv].
Qed.

Lemma wf_heap_X : wf_heap [mkVariable "X" None].
Proof.
  intros [|p] v r Hp Hr; simpl in Hp; [injection Hp as <-; discriminate|discriminate].
Qed.

Lemma copy_term_fresh_per_occurrence_witness :
  (wf_heap [mkVariable "X" None] /\ addrs_lt 1 (Compound "f" [Var 0; Var 0])) /\
  ((exists e, [mkVariable "X" None; mkVariable "" None; mkVariable "" None]
              = [mkVariable "X" None] ++ e) /\
   (exists s, shape 3 [mkVariable "X" None] (Compound "f" [Var 0; Var 0]) = Some s /\
      shape 3 [mkVariable "X" None; mkVariable "" None; mkVariable "" None]
            (Compound "f" [Var 1; Var 2]) = Some s) /\
   (exists vs, uvars 3 [mkVariable "X" None; mkVariable "" None; mkVariable "" None]
                 (Compound "f" [Var 1; Var 2]) = Some vs /\ NoDup vs /\
               Forall (fun w => length [mkVariable "X" None] <= w) vs)).
Proof.
  split; [split; [exact wf_heap_X|simpl; lia]|].
  apply (copy_term_fresh_per_occurrence 3 [mkVariable "X" None] (Compound "f" [Var 0; Var 0])).
  - exact wf_heap_X.
  - simpl. lia.
  - reflexivity.
Defined.

(** C4, counterexample: without the occurs check, [f(X,X) = f(g(X),X)]
    binds [X] to [g(X)] and then unifies [X] with [X] forever: there is
    no fuel for which [Unify] returns, so unification is not total. *)
Lemma unify_not_total :
  ~ (forall (h : heap) (a b : Term) (oc : bool), exists n r, Unify n h a b oc = Some r).
Proof.
  intros H.
  destruct (H [mkVariable "X" None] (Compound "f" [Var 0; Var 0])
              (Compound "f" [Compound "g" [Var 0]; Var 0]) false) as [n [r Hr]].
  rewrite Unify_diverges in Hr. discriminate.
Qed.

(** C4, amended: whenever [Unify] returns, it returns the heap and a
    success flag.  Two compounds unify exactly when their functors and
    arities agree and their arguments unify pairwise left to right,
    threading the heap; different functors or arities fail with the heap
    unchanged; atoms and integers unify exactly with an identical value
    and fail against any other atomic value or a compound.  (It can
    fail to return: see [unify_not_total].) *)
Theorem unify_structural (n : nat) (h : heap) (oc : bool) :
  (forall f args g targs h',
     Unify (S n) h (Compound f args) (Compound g targs) oc = Some (h', true) <->
     f = g /\ length args = length targs /\ args_unified n oc h args targs h') /\
  (forall f args g targs, f <> g \/ length args <> length targs ->
     Unify (S n) h (Compound f args) (Compound g targs) oc = Some (h, false)) /\
  (forall x y, Unify (S n) h (Atom x) (Atom y) oc = Some (h, bool_decide (x = y))) /\
  (forall i j, Unify (S n) h (Integer i) (Integer j) oc = Some (h, bool_decide (i = j))) /\
  (forall x j, Unify (S n) h (Atom x) (Integer j) oc = Some (h, false) /\
               Unify (S n) h (Integer j) (Atom x) oc = Some (h, false)) /\
  (forall x f args, Unify (S n) h (Atom x) (Compound f args) oc = Some (h, false) /\
                    Unify (S n) h (Compound f args) (Atom x) oc = Some (h, false)) /\
  (forall i f args, Unify (S n) h (Integer i) (Compound f args) oc = Some (h, false) /\
                    Unify (S n) h (Compound f args) (Integer i) oc = Some (h, false)).
Proof.
  split; [|split; [|split; [|split; [|split; [|split]]]]].
  - intros f args g targs h'. rewrite Unify_Compound.
    destruct (String.eqb_spec f g) as [<-|Hne]; simpl.
    + destruct (Nat.eqb_spec (length args) (length targs)) as [Hl|Hl]; simpl.
      * rewrite unify_args_true by exact Hl. split; [intros H; auto|].
        intros (_ & _ & H). exact H.
      * split; [intros [=]|]. intros (_ & Hl' & _). contradiction.
    + split; [intros [=]|]. intros (Heq & _). contradiction.
  - intros f args g targs Hd. rewrite Unify_Compound.
    destruct (String.eqb_spec f g) as [<-|Hne]; [|reflexivity].
    destruct (Nat.eqb_spec (length args) (length targs)) as [Hl|Hl]; [|reflexivity].
    destruct Hd; contradiction.
  - intros x y. simpl. destruct (String.eqb_spec x y) as [<-|Hne].
    + rewrite bool_decide_true; reflexivity.
    + rewrite bool_decide_false; auto.
  - intros i j. simpl. destruct (Z.eqb_spec i j) as [<-|Hne].
    + rewrite bool_decide_true; reflexivity.
    + rewrite bool_decide_false; auto.
  - intros x j. split; reflexivity.
  - intros x f args. split; reflexivity.
  - intros i f args. split; reflexivity.
Qed.

End PtrTermFacts.

Module EngineFacts.
Import Engine.

Lemma Resolve_unbound env x : env !! x = None -> Resolve env (Var x) = Var x.
Proof. intros H. unfold Resolve. simpl. rewrite H. reflexivity. Qed.

(** [Compare] on fuel [S n], with both receivers' cases written against
    the resolved receiver. *)
Lemma Compare_S_eq n env a b :
  Compare (S n) env a b =
  match Resolve env a with
  | Var v' => match Resolve env b with Var w => Some (strings_Compare v' w) | _ => Some (-1)%Z end
  | r => compare_nonvar (Compare n env) env r b
  end.
Proof. destruct a; reflexivity. Qed.

Lemma new_variables_names k : forall c, (0 <= c)%Z -> (c + Z.of_nat k < 2 ^ 64)%Z ->
  forall t, In t (new_variables k c) ->
  exists j, (c < j <= c + Z.of_nat k)%Z /\ t = Var (String.append "_" (pretty (Z.to_N j))).
Proof.
  induction k as [|k IHk]; intros c Hc Hk t Ht; [contradiction|].
  simpl in Ht. unfold NewVariable in Ht. rewrite Z.mod_small in Ht by lia.
  destruct Ht as [<-|Ht].
  - exists (c + 1)%Z. split; [lia|reflexivity].
  - destruct (IHk (c + 1)%Z ltac:(lia) ltac:(lia) t Ht) as [j [Hj ->]].
    exists j. split; [lia|reflexivity].
Qed.

Lemma new_variables_NoDup k : forall c, (0 <= c)%Z -> (c + Z.of_nat k < 2 ^ 64)%Z ->
  NoDup (new_variables k c).
Proof.
  induction k as [|k IHk]; intros c Hc Hk; [constructor|].
  simpl. unfold NewVariable. rewrite Z.mod_small by lia.
  constructor.
  - intros Hin. apply list_elem_of_In in Hin.
    apply new_variables_names in Hin as [j [Hj Heq]]; [|lia|lia].
    injection Heq as Heq. apply pretty_N_inj in Heq. apply Z2N.inj in Heq; lia.
  - apply IHk; lia.
Qed.

(** C9 (variable identity is the name): for unbound variables [x] and
    [y], unifying [x] with itself succeeds and leaves the bindings
    unchanged; unifying [x] with a differently named [y] binds [x] to
    [y]; compare/3 orders them by [strings.Compare] on their names; and
    successive [NewVariable] calls from a counter [c], without wrapping
    the 64-bit counter, yield pairwise distinct variables. *)
Theorem variable_identity_is_name (n : nat) (env : Env) (x y : string) (oc : bool)
  (k : nat) (c : Z) :
  env !! x = None -> env !! y = None -> (0 <= c)%Z -> (c + Z.of_nat k < 2 ^ 64)%Z ->
  Unify (S n) env (Var x) (Var x) oc = Some (env, true) /\
  (x <> y -> Unify (S (S n)) env (Var x) (Var y) oc = Some (Bind env x (Var y), true)) /\
  Compare (S n) env (Var x) (Var y) = Some (strings_Compare x y) /\
  NoDup (new_variables k c).
Proof.
  intros Hx Hy Hc Hk. split; [|split; [|split]].
  - cbn [Unify]. rewrite Resolve_unbound by exact Hx. simpl. rewrite String.eqb_refl.
    reflexivity.
  - intros Hne. cbn [Unify]. rewrite (Resolve_unbound env x Hx), (Resolve_unbound env y Hy).
    pose proof (proj2 (String.eqb_neq x y) Hne) as E1.
    pose proof (proj2 (String.eqb_neq y x) (not_eq_sym Hne)) as E2.
    simpl. rewrite E1. destruct oc; [|reflexivity].
    cbn [Contains]. rewrite (Resolve_unbound env y Hy). simpl. rewrite E2. reflexivity.
  - rewrite Compare_S_eq, (Resolve_unbound env x Hx), (Resolve_unbound env y Hy).
    reflexivity.
  - apply new_variables_NoDup; assumption.
Qed.

Lemma variable_identity_is_name_witness :
  ((∅ : Env) !! "X" = None /\ (∅ : Env) !! "Y" = None /\ (0 <= 0)%Z /\
   (0 + Z.of_nat 3 < 2 ^ 64)%Z) /\
  (Unify 1 ∅ (Var "X") (Var "X") true = Some (∅, true) /\
   ("X" <> "Y" -> Unify 2 ∅ (Var "X") (Var "Y") true = Some (Bind ∅ "X" (Var "Y"), true)) /\
   Compare 1 ∅ (Var "X") (Var "Y") = Some (strings_Compare "X" "Y") /\
   NoDup (new_variables 3 0)).
Proof.
  split; [split; [reflexivity|split; [reflexivity|split; lia]]|].
  apply (variable_identity_is_name 0 ∅ "X" "Y" true 3 0); [reflexivity|reflexivity|lia|lia].
Defined.

(** C7 (standard order of terms): [Compare] puts every term of a lower
    class (unbound variable < number < atom < compound, on the resolved
    terms) before every term of a higher class, in both directions; it
    orders atoms by [strings.Compare], which is lexicographic on
    character codes (a proper prefix first); and it orders compounds by
    arity, then functor, then arguments left to right. *)
Theorem compare_standard_order (n : nat) (env : Env) :
  (forall a b, (rank (Resolve env a) < rank (Resolve env b))%Z ->
     Compare (S n) env a b = Some (-1)%Z /\ Compare (S n) env b a = Some 1%Z) /\
  (forall x y, Compare (S n) env (Atom x) (Atom y) = Some (strings_Compare x y)) /\
  (forall c1 s1 c2 s2, strings_Compare (String c1 s1) (String c2 s2) =
     match N.compare (Ascii.N_of_ascii c1) (Ascii.N_of_ascii c2) with
     | Lt => (-1)%Z | Gt => 1%Z | Eq => strings_Compare s1 s2
     end) /\
  strings_Compare EmptyString EmptyString = 0%Z /\
  (forall c s, strings_Compare EmptyString (String c s) = (-1)%Z /\
               strings_Compare (String c s) EmptyString = 1%Z) /\
  (forall f args b g targs, Resolve env b = Compound g targs ->
     Compare (S n) env (Compound f args) b =
     match Nat.compare (length args) (length targs) with
     | Lt => Some (-1)%Z
     | Gt => Some 1%Z
     | Eq => match strings_Compare f g with
             | 0%Z => compare_args (Compare n env) args targs
             | c => Some c
             end
     end) /\
  (forall x y r1 r2, compare_args (Compare n env) (x :: r1) (y :: r2) =
     match Compare n env x y with
     | None => None
     | Some 0%Z => compare_args (Compare n env) r1 r2
     | Some c => Some c
     end) /\
  compare_args (Compare n env) [] [] = Some 0%Z.
Proof.
  split; [|split; [|split; [|split; [|split; [|split; [|split]]]]]].
  - intros a b H. rewrite !Compare_S_eq. unfold compare_nonvar.
    destruct (Resolve env a), (Resolve env b); simpl in H; try lia; split; reflexivity.
  - intros x y. reflexivity.
  - intros c1 s1 c2 s2. unfold strings_Compare. simpl. unfold Ascii.compare.
    destruct (N.compare (Ascii.N_of_ascii c1) (Ascii.N_of_ascii c2)); reflexivity.
  - reflexivity.
  - intros c s. split; reflexivity.
  - intros f args b g targs Hb. rewrite Compare_S_eq. simpl. unfold compare_nonvar.
    rewrite Hb. rewrite <- Nat2Z.inj_compare. reflexivity.
  - intros x y r1 r2. reflexivity.
  - reflexivity.
Qed.

Lemma compare_standard_order_witness :
  (rank (Resolve ∅ (Var "X")) < rank (Resolve ∅ (Integer 1)))%Z /\
  Compare 1 ∅ (Var "X") (Integer 1) = Some (-1)%Z /\ Compare 1 ∅ (Integer 1) (Var "X") = Some 1%Z.
Proof.
  split; [reflexivity|].
  apply (proj1 (compare_standard_order 0 ∅)). reflexivity.
Defined.

End EngineFacts.

Module VMFacts.
Import Engine VM.

(** C3 (unknown procedures): when the indicator is absent from the
    procedure table, [Arrive] with [unknown = error] returns an [Error]
    carrying [existence_error(procedure, Name/Arity)] and leaves the
    callback trace alone; with [unknown = warning] it invokes
    [OnUnknown] exactly once (the trace grows by exactly that call) and
    fails; with [unknown = fail] it fails without invoking it. *)
Theorem arrive_unknown_procedure (vm : VMState) (pi : ProcedureIndicator)
  (args : list Term) (env : Env) (tr : trace) :
  procedures vm !! (PIName pi, PIArity pi) = None ->
  (unknown vm = unknownError ->
     Arrive vm pi args env tr = (Error (existenceErrorProcedure (PITerm pi)), tr)) /\
  (unknown vm = unknownWarning ->
     Arrive vm pi args env tr = (Bool false, tr ++ [(pi, args, env)])) /\
  (unknown vm = unknownFail -> Arrive vm pi args env tr = (Bool false, tr)).
Proof.
  intros Hnone. unfold Arrive. rewrite Hnone.
  split; [|split]; intros Hu; rewrite Hu; reflexivity.
Qed.

Lemma arrive_unknown_procedure_witness :
  (∅ : gmap (string * Z) procedure) !! ("foo", 1%Z) = None /\
  ((unknownError = unknownError ->
    Arrive (mkVM ∅ unknownError) (mkPI "foo" 1) [Atom "a"] ∅ [] =
      (Error (existenceErrorProcedure (PITerm (mkPI "foo" 1))), [])) /\
   (unknownError = unknownWarning ->
    Arrive (mkVM ∅ unknownError) (mkPI "foo" 1) [Atom "a"] ∅ [] =
      (Bool false, [] ++ [(mkPI "foo" 1, [Atom "a"], ∅)])) /\
   (unknownError = unknownFail ->
    Arrive (mkVM ∅ unknownError) (mkPI "foo" 1) [Atom "a"] ∅ [] = (Bool false, []))).
Proof.
  split; [reflexivity|].
  apply (arrive_unknown_procedure (mkVM ∅ unknownError) (mkPI "foo" 1) [Atom "a"] ∅ []).
  reflexivity.
Defined.

(** C10, counterexample: an instruction whose opcode is [_opLen]
    indexes [jumpTable] out of range, so [exec] panics instead of
    returning a promise (here with unification and the built-ins always
    succeeding; the loop panics before calling any of them). *)
Lemma exec_panics_on_opcode_out_of_range :
  exec (fun env _ _ => (env, true)) (fun _ _ _ env c => (c, FTrue env))
       (fun _ _ env c => (c, FTrue env)) (fun _ c => (c, Bool true))
       (mkRegisters [mkInstruction 8 0] [] [] List0 List0 [] ∅) 0 = Panicked oob /\
  ~ (exists p c',
       exec (fun env _ _ => (env, true)) (fun _ _ _ env c => (c, FTrue env))
            (fun _ _ env c => (c, FTrue env)) (fun _ c => (c, Bool true))
            (mkRegisters [mkInstruction 8 0] [] [] List0 List0 [] ∅) 0 = Returned p c').
Proof.
  split; [reflexivity|]. intros [p [c' H]]. discriminate H.
Qed.

Section ExecWF.

Context (unify : Env -> Term -> Term -> Env * bool).
Context (functor_force : Term -> string -> Z -> Env -> Z -> Z * ForceResult).
Context (univ_force : Term -> Term -> Env -> Z -> Z * ForceResult).
Context (cont : Env -> Z -> Z * Promise).

(** Destruct every pending [match] of a handler's body. *)
Ltac split_handler :=
  repeat match goal with
  | |- context [match ?x with _ => _ end] =>
    lazymatch x with
    | context [match _ with _ => _ end] => fail
    | _ => let E := fresh "E" in destruct x eqn:E
    end
  end;
  simpl; repeat split.

(** One step of the loop on a well-formed instruction: the opcode has a
    handler, which returns a promise or consumes the instruction and
    keeps the tables it indexes. *)
Lemma handler_step (r : registers) (c : Z) (i : instruction) (rest : bytecode) :
  pc r = i :: rest -> wf_instruction r i ->
  exists op, jumpTable unify functor_force univ_force cont (opcode i) = Some op /\
  match op r c with
  | Ret _ _ => True
  | Next r' _ => pc r' = rest /\ xr r' = xr r /\ vars r' = vars r /\ pis r' = pis r
  | Panic _ => False
  end.
Proof.
  intros Hpc Hwf. unfold wf_instruction in Hwf. unfold jumpTable.
  destruct (N.eqb (opcode i) opConst) eqn:E1.
  { eexists. split; [reflexivity|]. unfold execConst. rewrite Hpc.
    destruct (lookup_lt_is_Some_2 _ _ Hwf) as [x Hx]. rewrite Hx. split_handler. }
  destruct (N.eqb (opcode i) opVar) eqn:E2.
  { eexists. split; [reflexivity|]. unfold execVar. rewrite Hpc.
    destruct (lookup_lt_is_Some_2 _ _ Hwf) as [x Hx]. rewrite Hx. split_handler. }
  destruct (N.eqb (opcode i) opFunctor) eqn:E3.
  { eexists. split; [reflexivity|]. unfold execFunctor. rewrite Hpc.
    destruct (lookup_lt_is_Some_2 _ _ Hwf) as [x Hx]. rewrite Hx. split_handler. }
  destruct (N.eqb (opcode i) opPop) eqn:E4.
  { eexists. split; [reflexivity|]. unfold execPop. rewrite Hpc. split_handler. }
  destruct (N.eqb (opcode i) opEnter) eqn:E5.
  { eexists. split; [reflexivity|]. unfold execEnter. rewrite Hpc. split_handler. }
  destruct (N.eqb (opcode i) opCall) eqn:E6.
  { eexists. split; [reflexivity|]. unfold execCall. rewrite Hpc.
    destruct (lookup_lt_is_Some_2 _ _ Hwf) as [x Hx]. rewrite Hx. split_handler. }
  destruct (N.eqb (opcode i) opExit) eqn:E7.
  { eexists. split; [reflexivity|]. unfold execExit. destruct (cont (renv r) c). exact I. }
  destruct (N.eqb (opcode i) opCut) eqn:E8.
  { eexists. split; [reflexivity|]. unfold execCut. rewrite Hpc. exact I. }
  exfalso. apply N.eqb_neq in E1, E2, E3, E4, E5, E6, E7, E8.
  unfold _opLen, opConst, opVar, opFunctor, opPop, opEnter, opCall, opExit, opCut in *.
  lia.
Qed.

Lemma wf_instruction_same_tables r r' i :
  xr r' = xr r -> vars r' = vars r -> pis r' = pis r ->
  wf_instruction r i -> wf_instruction r' i.
Proof. intros Hx Hv Hp. unfold wf_instruction. rewrite Hx, Hv, Hp. exact id. Qed.

(** What the loop returns, tied to the run: after the rounds in which
    the handlers returned [nil], either the program counter is empty
    and the loop returns the non-exit error, or the handler of the
    current instruction returned the promise. *)
Definition exec_result (r : registers) (c : Z) (p : Promise) (c' : Z) : Prop :=
  exists r0 c0, steps unify functor_force univ_force cont r c r0 c0 /\
   ((pc r0 = [] /\ p = Error (HostError "non-exit end of bytecode") /\ c' = c0) \/
    exists i rest op, pc r0 = i :: rest /\
      jumpTable unify functor_force univ_force cont (opcode i) = Some op /\
      op r0 c0 = Ret p c').

Lemma exec_go_wf fuel : forall r c,
  (length (pc r) < fuel)%nat -> Forall (wf_instruction r) (pc r) ->
  exists p c', exec_go unify functor_force univ_force cont fuel r c = Returned p c' /\
  exec_result r c p c'.
Proof.
  induction fuel as [|n IH]; intros r c Hlen Hwf; [lia|].
  simpl. destruct (pc r) as [|i rest] eqn:Hpc.
  { eexists _, _. split; [reflexivity|]. exists r, c. split; [constructor|].
    left. repeat split; assumption. }
  apply Forall_cons in Hwf as [Hi Hrest].
  destruct (handler_step r c i rest Hpc Hi) as [op [Hop Hstep]].
  rewrite Hop. destruct (op r c) as [r' c'|p c'|m] eqn:Hrun.
  - destruct Hstep as (Hpc' & Hx & Hv & Hp).
    destruct (IH r' c') as (p & c'' & Hex & r0 & c0 & Hsteps & Hres).
    + rewrite Hpc'. simpl in Hlen. lia.
    + rewrite Hpc'. eapply Forall_impl; [exact Hrest|].
      intros x. apply wf_instruction_same_tables; assumption.
    + exists p, c''. split; [exact Hex|]. exists r0, c0. split; [|exact Hres].
      eapply steps_next; eassumption.
  - eexists _, _. split; [reflexivity|]. exists r, c. split; [constructor|].
    right. exists i, rest, op. repeat split; assumption.
  - contradiction.
Qed.

(** C10, amended: on bytecode whose every instruction has an opcode
    below [_opLen] and an operand inside the table it indexes ([xr],
    [vars] or [pi]), the loop of [exec] always returns a promise, never
    panics, whatever unification, the built-ins and the continuation
    return.  After the rounds whose handler returned [nil], it returns
    either the promise the handler of the current instruction
    returned, or, when the program counter has run off the end, the
    error ["non-exit end of bytecode"]. *)
Theorem exec_total_on_wf_bytecode (r : registers) (c : Z) :
  Forall (wf_instruction r) (pc r) ->
  exists p c', exec unify functor_force univ_force cont r c = Returned p c' /\
  exists r0 c0, steps unify functor_force univ_force cont r c r0 c0 /\
   ((pc r0 = [] /\ p = Error (HostError "non-exit end of bytecode") /\ c' = c0) \/
    exists i rest op, pc r0 = i :: rest /\
      jumpTable unify functor_force univ_force cont (opcode i) = Some op /\
      op r0 c0 = Ret p c').
Proof. intros Hwf. apply exec_go_wf; [lia|exact Hwf]. Qed.

End ExecWF.

Lemma exec_total_on_wf_bytecode_witness :
  Forall (wf_instruction
            (mkRegisters [mkInstruction opEnter 0; mkInstruction opCall 0; mkInstruction opExit 0]
                         [] [] (Var "A") (Var "S") [mkPI "foo" 0] ∅))
         [mkInstruction opEnter 0; mkInstruction opCall 0; mkInstruction opExit 0] /\
  exists p c',
    exec (fun env _ _ => (env, true)) (fun _ _ _ env c => (c, FTrue env))
         (fun _ _ env c => (c, FTrue env)) (fun _ c => (c, Bool true))
         (mkRegisters [mkInstruction opEnter 0; mkInstruction opCall 0; mkInstruction opExit 0]
                      [] [] (Var "A") (Var "S") [mkPI "foo" 0] ∅) 0 = Returned p c' /\
    exists r0 c0,
      steps (fun env _ _ => (env, true)) (fun _ _ _ env c => (c, FTrue env))
            (fun _ _ env c => (c, FTrue env)) (fun _ c => (c, Bool true))
            (mkRegisters [mkInstruction opEnter 0; mkInstruction opCall 0; mkInstruction opExit 0]
                         [] [] (Var "A") (Var "S") [mkPI "foo" 0] ∅) 0 r0 c0 /\
      ((pc r0 = [] /\ p = Error (HostError "non-exit end of bytecode") /\ c' = c0) \/
       exists i rest op, pc r0 = i :: rest /\
         jumpTable (fun env _ _ => (env, true)) (fun _ _ _ env c => (c, FTrue env))
                   (fun _ _ env c => (c, FTrue env)) (fun _ c => (c, Bool true)) (opcode i) = Some op /\
         op r0 c0 = Ret p c').
Proof.
  assert (Hwf : Forall (wf_instruction
            (mkRegisters [mkInstruction opEnter 0; mkInstruction opCall 0; mkInstruction opExit 0]
                         [] [] (Var "A") (Var "S") [mkPI "foo" 0] ∅))
         [mkInstruction opEnter 0; mkInstruction opCall 0; mkInstruction opExit 0]).
  { repeat constructor; unfold wf_instruction; simpl; lia. }
  split; [exact Hwf|].
  exact (exec_total_on_wf_bytecode (fun env _ _ => (env, true)) (fun _ _ _ env c => (c, FTrue env))
           (fun _ _ env c => (c, FTrue env)) (fun _ c => (c, Bool true)) _ 0 Hwf).
Defined.

End VMFacts.

Module ArithFacts.
Import Engine Arith.

(** C5 (division by zero): when both operands of a division evaluate
    and the divisor is zero, [/] raises [evaluation_error(zero_divisor)],
    and so does [//] on integer operands; in particular [X is 1/0] and
    [X is 4 // 0] raise it. *)
Theorem division_by_zero_raises (n : nat) (env : Env) (x y vx vy : Term) :
  eval n env x = Some (inr vx) -> eval n env y = Some (inr vy) -> is_zero_number vy = true ->
  eval (S n) env (Compound "/" [x; y]) = Some (inl evaluation_error_zero_divisor) /\
  (forall i, vx = Integer i -> vy = Integer 0 ->
     eval (S n) env (Compound "//" [x; y]) = Some (inl evaluation_error_zero_divisor)) /\
  Is 2 env (Var "X") (Compound "/" [Integer 1; Integer 0]) =
    Some (IsError evaluation_error_zero_divisor) /\
  Is 2 env (Var "X") (Compound "//" [Integer 4; Integer 0]) =
    Some (IsError evaluation_error_zero_divisor).
Proof.
  intros Hx Hy Hz. split; [|split; [|split]].
  - simpl. rewrite Hx, Hy. simpl. rewrite Hz. reflexivity.
  - intros i -> ->. simpl. rewrite Hx, Hy. reflexivity.
  - reflexivity.
  - reflexivity.
Qed.

Lemma division_by_zero_raises_witness :
  (eval 1 ∅ (Integer 1) = Some (inr (Integer 1)) /\ eval 1 ∅ (Integer 0) = Some (inr (Integer 0)) /\
   is_zero_number (Integer 0) = true) /\
  (eval 2 ∅ (Compound "/" [Integer 1; Integer 0]) = Some (inl evaluation_error_zero_divisor) /\
   (forall i, Integer 1 = Integer i -> Integer 0 = Integer 0 ->
      eval 2 ∅ (Compound "//" [Integer 1; Integer 0]) = Some (inl evaluation_error_zero_divisor)) /\
   Is 2 ∅ (Var "X") (Compound "/" [Integer 1; Integer 0]) =
     Some (IsError evaluation_error_zero_divisor) /\
   Is 2 ∅ (Var "X") (Compound "//" [Integer 4; Integer 0]) =
     Some (IsError evaluation_error_zero_divisor)).
Proof.
  split; [split; [reflexivity|split; reflexivity]|].
  apply (division_by_zero_raises 1 ∅ (Integer 1) (Integer 0) (Integer 1) (Integer 0));
    reflexivity.
Defined.

End ArithFacts.

Module DBFacts.
Import Engine VM DB.

Lemma fact_answers_app fuel env goal cs1 cs2 :
  fact_answers fuel env goal (cs1 ++ cs2) =
  fact_answers fuel env goal cs1 ++ fact_answers fuel env goal cs2.
Proof. unfold fact_answers. apply omap_app. Qed.

(** C8 (assertz appends, asserta prepends): for a clause [t] whose head
    has indicator [pi], and any goal calling [pi]: on a dynamic
    procedure [assertz] puts the clause after the existing ones and
    [asserta] before them, so the goal's solutions are the old ones
    followed, resp. preceded, by the new clause's; on an absent
    procedure both create it with that clause alone; on a built-in both
    raise [permission_error(modify, static_procedure, Name/Arity)]. *)
Theorem assert_clause_order (fuel : nat) (env : Env) (db : Database) (t h b goal : Term)
  (pi : ProcedureIndicator) (hargs gargs : list Term) :
  split_clause env t = (h, b) -> piArgs h env = inr (pi, hargs) ->
  piArgs goal env = inr (pi, gargs) ->
  (forall cs, db !! key pi = Some (UserDefined true cs) ->
     (exists db', Assertz env t db = inr db' /\
        clauses_of db' env goal = cs ++ [(h, b)] /\
        solutions fuel db' env goal =
          solutions fuel db env goal ++ fact_answers fuel env goal [(h, b)]) /\
     (exists db', Asserta env t db = inr db' /\
        clauses_of db' env goal = (h, b) :: cs /\
        solutions fuel db' env goal =
          fact_answers fuel env goal [(h, b)] ++ solutions fuel db env goal)) /\
  (db !! key pi = None ->
     (exists db', Assertz env t db = inr db' /\ clauses_of db' env goal = [(h, b)]) /\
     (exists db', Asserta env t db = inr db' /\ clauses_of db' env goal = [(h, b)])) /\
  (forall impl, db !! key pi = Some (BuiltIn impl) ->
     Assertz env t db = inl (PermissionErrorModifyStaticProcedure (PITerm pi)) /\
     Asserta env t db = inl (PermissionErrorModifyStaticProcedure (PITerm pi))).
Proof.
  intros Hsplit Hpi Hgoal.
  assert (Hcl : forall db' cs', db' !! key pi = Some (UserDefined true cs') ->
            clauses_of db' env goal = cs').
  { intros db' cs' Hdb'. unfold clauses_of. rewrite Hgoal. rewrite Hdb'. reflexivity. }
  unfold Assertz, Asserta, assert_with. rewrite Hsplit, Hpi.
  split; [|split].
  - intros cs Hdb. rewrite Hdb. split.
    + eexists. split; [reflexivity|].
      rewrite (Hcl _ (cs ++ [(h, b)])) by apply lookup_insert_eq. split; [reflexivity|].
      unfold solutions. rewrite (Hcl _ (cs ++ [(h, b)])) by apply lookup_insert_eq.
      rewrite (Hcl db cs Hdb). apply fact_answers_app.
    + eexists. split; [reflexivity|].
      rewrite (Hcl _ ((h, b) :: cs)) by apply lookup_insert_eq. split; [reflexivity|].
      unfold solutions. rewrite (Hcl _ ((h, b) :: cs)) by apply lookup_insert_eq.
      rewrite (Hcl db cs Hdb). apply (fact_answers_app fuel env goal [(h, b)] cs).
  - intros Hdb. rewrite Hdb. split; eexists; (split; [reflexivity|]);
      apply Hcl; apply lookup_insert_eq.
  - intros impl Hdb. rewrite Hdb. split; reflexivity.
Qed.

Lemma assert_clause_order_witness :
  exists db',
    Assertz ∅ (Compound "foo" [Atom "b"])
      (<[("foo", 1%Z) := UserDefined true [(Compound "foo" [Atom "a"], Atom "true")]]> ∅) = inr db' /\
    clauses_of db' ∅ (Compound "foo" [Var "X"]) =
      [(Compound "foo" [Atom "a"], Atom "true"); (Compound "foo" [Atom "b"], Atom "true")].
Proof.
  destruct (assert_clause_order 2 ∅
              (<[("foo", 1%Z) := UserDefined true [(Compound "foo" [Atom "a"], Atom "true")]]> ∅)
              (Compound "foo" [Atom "b"]) (Compound "foo" [Atom "b"]) (Atom "true")
              (Compound "foo" [Var "X"]) (mkPI "foo" 1) [Atom "b"] [Var "X"])
    as [Hdyn _]; [reflexivity|reflexivity|reflexivity|].
  destruct (Hdyn [(Compound "foo" [Atom "a"], Atom "true")]) as [[db' [E [C _]]] _];
    [reflexivity|].
  exists db'. split; [exact E|exact C].
Defined.

End DBFacts.

(* ================================================================== *)
(** ** More properties of the pointer terms (term.go) *)
(* ================================================================== *)

Module PtrTermMore.
Import PtrTerm PtrTermFacts.

Lemma Contains_Compound n h f args s :
  Contains (S n) h (Compound f args) s =
  if is_atom_named f s then Some true else contains_args n h s args.
Proof. reflexivity. Qed.

Lemma set_ref_lookup p r h q :
  set_ref p r h !! q =
  if Nat.eqb p q then option_map (fun v => mkVariable (Name v) r) (h !! q) else h !! q.
Proof.
  unfold set_ref. destruct (Nat.eqb p q) eqn:E.
  - apply Nat.eqb_eq in E as ->. destruct (h !! q) as [v|] eqn:Hq; simpl.
    + apply list_lookup_insert_eq. eapply lookup_lt_Some; eassumption.
    + exact Hq.
  - apply Nat.eqb_neq in E. destruct (h !! p); [|reflexivity].
    apply list_lookup_insert_ne. exact E.
Qed.

Lemma length_set_ref p r h : length (set_ref p r h) = length h.
Proof. unfold set_ref. destruct (h !! p); [apply length_insert|reflexivity]. Qed.

Lemma reaches_extend h q t p v r :
  reaches h q t -> t = Var p -> h !! p = Some v -> Ref v = Some r -> reaches h q r.
Proof.
  intros H. revert p v r. induction H as [q w t Hq Hw|q w q' t Hq Hw H IH];
    intros p v r Ht Hp Hv; subst.
  - eapply reaches_step; [exact Hq|exact Hw|]. eapply reaches_one; eassumption.
  - eapply reaches_step; [exact Hq|exact Hw|]. eapply IH; eauto.
Qed.

Lemma NoDup_bounded_length (l : list nat) k :
  NoDup l -> Forall (fun q => q < k) l -> length l <= k.
Proof.
  intros Hnd Hlt. rewrite <- (length_seq k 0).
  apply List.NoDup_incl_length; [apply NoDup_ListNoDup; exact Hnd|].
  intros x Hx. apply in_seq. rewrite Forall_forall in Hlt. specialize (Hlt x (proj2 (list_elem_of_In _ _) Hx)). lia.
Qed.

(** What [Resolve] may return: a non-variable, an unbound variable, or a
    variable that lies on a cycle of bound variables. *)
Definition resolved (h : heap) (r : Term) : Prop :=
  match r with
  | Var p => exists v, h !! p = Some v /\ (Ref v = None \/ reaches h p (Var p))
  | _ => True
  end.

Lemma resolve_loop_spec h (Hwf : wf_heap h) fuel : forall stop t,
  addrs_lt (length h) t -> NoDup stop -> Forall (fun q => q < length h) stop ->
  length h + 1 <= fuel + length stop ->
  (forall q, In q stop -> reaches h q t) ->
  exists r, resolve_loop fuel h stop t = Some r /\ resolved h r /\
    (r = t \/ exists p, t = Var p /\ reaches h p r).
Proof.
  induction fuel as [|n IH]; intros stop t Ht Hnd Hlt Hfuel Hreach.
  - pose proof (NoDup_bounded_length stop (length h) Hnd Hlt). lia.
  - destruct t as [a|i|p|f args]; try (eexists; split; [reflexivity|]; split; [exact I|left; reflexivity]).
    simpl in Ht. destruct (lookup_lt_is_Some_2 h p Ht) as [v Hv].
    simpl. rewrite Hv. destruct (Ref v) as [r|] eqn:Hr.
    + destruct (existsb (Nat.eqb p) stop) eqn:Hin.
      * eexists; split; [reflexivity|]. split; [|left; reflexivity].
        exists v. split; [exact Hv|right].
        apply existsb_exists in Hin as [q [Hq Hpq]]. apply Nat.eqb_eq in Hpq. subst q.
        apply Hreach. exact Hq.
      * assert (Hnin : ~ In p stop).
        { intros Hq. assert (existsb (Nat.eqb p) stop = true) as Hc
            by (apply existsb_exists; exists p; split; [exact Hq|apply Nat.eqb_refl]).
          congruence. }
        destruct (IH (stop ++ [p]) r) as [r' [Hres [Hok Hr']]].
        -- eapply Hwf; eassumption.
        -- apply NoDup_app. split; [exact Hnd|]. split.
           ++ intros x Hx1 Hx2. apply list_elem_of_In in Hx1. apply list_elem_of_In in Hx2.
              destruct Hx2 as [<-|[]]. contradiction.
           ++ constructor; [intros Hx; inversion Hx|constructor].
        -- apply Forall_app. split; [exact Hlt|]. constructor; [exact Ht|constructor].
        -- rewrite length_app. simpl. lia.
        -- intros q Hq. apply in_app_or in Hq as [Hq|[<-|[]]].
           ++ eapply reaches_extend; [apply Hreach; exact Hq|reflexivity|exact Hv|exact Hr].
           ++ eapply reaches_one; eassumption.
        -- exists r'. split; [exact Hres|]. split; [exact Hok|]. right. exists p. split; [reflexivity|].
           destruct Hr' as [->|[p1 [-> Hp1]]].
           ++ eapply reaches_one; eassumption.
           ++ eapply reaches_step; eassumption.
    + eexists; split; [reflexivity|]. split; [|left; reflexivity].
      exists v. split; [exact Hv|left; exact Hr].
Qed.

(** X1. [Resolve] terminates on every heap without dangling pointers,
    also when bound variables form a cycle, and returns a term of the
    chain of [Ref]s starting at [t]: a non-variable, an unbound variable,
    or a variable on a cycle. *)
Theorem Resolve_total (h : heap) (t : Term) :
  wf_heap h -> addrs_lt (length h) t ->
  exists r, Resolve h t = Some r /\ resolved h r /\
    (r = t \/ exists p, t = Var p /\ reaches h p r).
Proof.
  intros Hwf Ht. unfold Resolve. apply resolve_loop_spec; auto.
  - constructor.
  - simpl. lia.
  - intros q [].
Qed.

(** The cell [X] bound to itself. *)
Lemma Resolve_total_witness :
  (wf_heap [mkVariable "X" (Some (Var 0))] /\ addrs_lt 1 (Var 0)) /\
  exists r, Resolve [mkVariable "X" (Some (Var 0))] (Var 0) = Some r /\
    resolved [mkVariable "X" (Some (Var 0))] r /\
    (r = Var 0 \/ exists p, Var 0 = Var p /\ reaches [mkVariable "X" (Some (Var 0))] p r).
Proof.
  assert (Hwf : wf_heap [mkVariable "X" (Some (Var 0))]).
  { intros p v r Hp Hr. apply list_lookup_singleton_Some in Hp as [-> <-].
    injection Hr as <-. simpl. lia. }
  split; [split; [exact Hwf|simpl; lia]|].
  apply (Resolve_total [mkVariable "X" (Some (Var 0))] (Var 0) Hwf). simpl. lia.
Defined.

Lemma Resolve_bound_to_unbound h x c k :
  length h = S k -> h !! x = Some c -> Ref c = Some (Var k) ->
  h !! k = Some (mkVariable "" None) -> Resolve h (Var x) = Some (Var k).
Proof.
  intros Hlen Hx Hc Hk. unfold Resolve. rewrite Hlen. cbn [resolve_loop].
  rewrite Hx, Hc. cbn [existsb app]. destruct k as [|k']; cbn [resolve_loop]; rewrite Hk; reflexivity.
Qed.

(** X2. [Variable.Unify] of two unbound variables (without occurs check)
    allocates one fresh unbound cell and binds both to it, so both then
    resolve to that cell; every other cell is left as it was.  This
    also holds when both sides are the same variable. *)
Theorem unify_unbound_vars_share (n : nat) (h : heap) (p q : nat) (vp vq : VarCell) :
  h !! p = Some vp -> Ref vp = None -> h !! q = Some vq -> Ref vq = None ->
  exists h', Unify (S n) h (Var p) (Var q) false = Some (h', true) /\
    length h' = S (length h) /\
    h' !! length h = Some (mkVariable "" None) /\
    Resolve h' (Var p) = Some (Var (length h)) /\
    Resolve h' (Var q) = Some (Var (length h)) /\
    (forall r, r < length h -> r <> p -> r <> q -> h' !! r = h !! r).
Proof.
  intros Hp Hvp Hq Hvq.
  pose proof (lookup_lt_Some _ _ _ Hp) as Hpl. pose proof (lookup_lt_Some _ _ _ Hq) as Hql.
  set (h1 := h ++ [mkVariable "" None]).
  set (h' := set_ref p (Some (Var (length h))) (set_ref q (Some (Var (length h))) h1)).
  assert (Hh1 : forall r, r < length h -> h1 !! r = h !! r) by (intros r Hr; apply lookup_app_l; exact Hr).
  assert (Hlen : length h' = S (length h)).
  { unfold h'. rewrite !length_set_ref. unfold h1. rewrite length_app. simpl. lia. }
  assert (Hk : h' !! length h = Some (mkVariable "" None)).
  { unfold h'. rewrite !set_ref_lookup.
    replace (Nat.eqb p (length h)) with false by (symmetry; apply Nat.eqb_neq; lia).
    replace (Nat.eqb q (length h)) with false by (symmetry; apply Nat.eqb_neq; lia).
    apply lookup_alloc. }
  assert (Hq' : exists c, h' !! q = Some c /\ Ref c = Some (Var (length h))).
  { unfold h'. rewrite !set_ref_lookup. rewrite Nat.eqb_refl. rewrite (Hh1 q Hql), Hq.
    destruct (Nat.eqb p q) eqn:E; simpl; eexists; split; reflexivity. }
  assert (Hp' : exists c, h' !! p = Some c /\ Ref c = Some (Var (length h))).
  { unfold h'. rewrite !set_ref_lookup. rewrite Nat.eqb_refl.
    destruct (Nat.eqb q p); simpl; rewrite (Hh1 p Hpl), Hp; simpl; eexists; split; reflexivity. }
  exists h'. split.
  { cbn [Unify]. rewrite Hp, Hvp, Hq, Hvq. reflexivity. }
  split; [exact Hlen|]. split; [exact Hk|].
  destruct Hp' as [cp [Hcp Hrp]]. destruct Hq' as [cq [Hcq Hrq]].
  split; [eapply Resolve_bound_to_unbound; eassumption|].
  split; [eapply Resolve_bound_to_unbound; eassumption|].
  intros r Hr Hrp' Hrq'. unfold h'. rewrite !set_ref_lookup.
  replace (Nat.eqb p r) with false by (symmetry; apply Nat.eqb_neq; congruence).
  replace (Nat.eqb q r) with false by (symmetry; apply Nat.eqb_neq; congruence).
  apply Hh1. exact Hr.
Qed.

Lemma unify_unbound_vars_share_witness :
  ((([mkVariable "X" None; mkVariable "Y" None] : heap) !! 0 = Some (mkVariable "X" None) /\
    Ref (mkVariable "X" None) = None) /\
   (([mkVariable "X" None; mkVariable "Y" None] : heap) !! 1 = Some (mkVariable "Y" None) /\
    Ref (mkVariable "Y" None) = None)) /\
  exists h', Unify 1 [mkVariable "X" None; mkVariable "Y" None] (Var 0) (Var 1) false = Some (h', true) /\
    length h' = 3 /\ h' !! 2 = Some (mkVariable "" None) /\
    Resolve h' (Var 0) = Some (Var 2) /\ Resolve h' (Var 1) = Some (Var 2) /\
    (forall r, r < 2 -> r <> 0 -> r <> 1 -> h' !! r = ([mkVariable "X" None; mkVariable "Y" None] : heap) !! r).
Proof.
  split; [repeat split|].
  exact (unify_unbound_vars_share 0 [mkVariable "X" None; mkVariable "Y" None] 0 1
           (mkVariable "X" None) (mkVariable "Y" None) eq_refl eq_refl eq_refl eq_refl).
Defined.

(** X3. Unifying an unbound variable with a non-variable term, in either
    order and without occurs check, succeeds by setting the variable's
    [Ref] to that term: the variable then resolves to the term and no
    other cell changes. *)
Theorem unify_binds_unbound_var (n : nat) (h : heap) (p : nat) (vp : VarCell) (t : Term) :
  h !! p = Some vp -> Ref vp = None -> match t with Var _ => False | _ => True end ->
  Unify (S n) h (Var p) t false = Some (set_ref p (Some t) h, true) /\
  Unify (S (S n)) h t (Var p) false = Some (set_ref p (Some t) h, true) /\
  Resolve (set_ref p (Some t) h) (Var p) = Some t /\
  (forall r, r <> p -> set_ref p (Some t) h !! r = h !! r).
Proof.
  intros Hp Hvp Ht.
  assert (HU : Unify (S n) h (Var p) t false = Some (set_ref p (Some t) h, true)).
  { destruct t as [a|i|q|f args]; [| |contradiction|]; cbn [Unify]; rewrite Hp, Hvp; reflexivity. }
  split; [exact HU|]. split.
  { destruct t as [a|i|q|f args]; [| |contradiction|]; exact HU. }
  split.
  - pose proof (lookup_lt_Some _ _ _ Hp) as Hpl.
    unfold Resolve. rewrite length_set_ref. cbn [resolve_loop].
    rewrite set_ref_lookup, Nat.eqb_refl, Hp. cbn [option_map Ref existsb app].
    destruct (length h) as [|m]; [lia|].
    destruct t as [a|i|q|f args]; [| |contradiction|]; reflexivity.
  - intros r Hr. rewrite set_ref_lookup.
    replace (Nat.eqb p r) with false by (symmetry; apply Nat.eqb_neq; congruence). reflexivity.
Qed.

Lemma unify_binds_unbound_var_witness :
  (([mkVariable "X" None] : heap) !! 0 = Some (mkVariable "X" None) /\
   Ref (mkVariable "X" None) = None /\ True) /\
  Unify 1 [mkVariable "X" None] (Var 0) (Compound "f" [Atom "a"]) false =
    Some (set_ref 0 (Some (Compound "f" [Atom "a"])) [mkVariable "X" None], true) /\
  Unify 2 [mkVariable "X" None] (Compound "f" [Atom "a"]) (Var 0) false =
    Some (set_ref 0 (Some (Compound "f" [Atom "a"])) [mkVariable "X" None], true) /\
  Resolve (set_ref 0 (Some (Compound "f" [Atom "a"])) [mkVariable "X" None]) (Var 0) =
    Some (Compound "f" [Atom "a"]) /\
  (forall r, r <> 0 -> set_ref 0 (Some (Compound "f" [Atom "a"])) [mkVariable "X" None] !! r =
                       ([mkVariable "X" None] : heap) !! r).
Proof.
  split; [repeat split|].
  exact (unify_binds_unbound_var 0 [mkVariable "X" None] 0 (mkVariable "X" None)
           (Compound "f" [Atom "a"]) eq_refl eq_refl I).
Defined.

(** X4. Two proper lists built by [List] unify only if they have the
    same length: the spine of the shorter one ends in the atom [[]],
    which does not unify with a [.]/2 cell. *)
Theorem unify_lists_same_length (ts1 : list Term) :
  forall n h ts2 oc h', Unify n h (List ts1) (List ts2) oc = Some (h', true) ->
  length ts1 = length ts2.
Proof.
  induction ts1 as [|a l1 IH]; intros n h ts2 oc h' H; destruct n as [|m]; try discriminate;
    destruct ts2 as [|b l2]; try reflexivity; try discriminate.
  change (List (a :: l1)) with (Compound "." [a; List l1]) in H.
  change (List (b :: l2)) with (Compound "." [b; List l2]) in H.
  rewrite Unify_Compound in H. cbn [negb String.eqb Nat.eqb length] in H.
  unfold unify_args in H.
  destruct (Unify m h a b oc) as [[h1 [|]]|]; try discriminate.
  destruct (Unify m h1 (List l1) (List l2) oc) as [[h2 [|]]|] eqn:E; try discriminate.
  simpl. f_equal. eapply IH. exact E.
Qed.

Lemma unify_lists_same_length_witness :
  Unify 5 [mkVariable "X" None] (List [Var 0; Atom "b"]) (List [Atom "a"; Atom "b"]) false =
    Some ([mkVariable "X" (Some (Atom "a"))], true) /\ length [Var 0; Atom "b"] = length [Atom "a"; Atom "b"].
Proof.
  split; [reflexivity|].
  apply (unify_lists_same_length [Var 0; Atom "b"] 5 [mkVariable "X" None] [Atom "a"; Atom "b"] false
           [mkVariable "X" (Some (Atom "a"))]). reflexivity.
Defined.

(** X5. For an unbound variable [X], the occurs check [Contains(t, X)]
    answers true exactly when [X] is among the unbound variables reached
    from [t] through bound variables. *)
Theorem contains_iff_uvars (n : nat) :
  forall (h : heap) (t : Term) (p : nat) (v : VarCell) (b : bool) (vs : list nat),
  h !! p = Some v -> Ref v = None ->
  Contains n h t (Var p) = Some b -> uvars n h t = Some vs ->
  (b = true <-> In p vs).
Proof.
  induction n as [|n IH]; intros h t p v b vs Hp Hv Hc Hu; [discriminate|].
  destruct t as [a|i|q|f args].
  - cbn in Hc, Hu. injection Hc as <-. injection Hu as <-. simpl. split; [discriminate|intros []].
  - cbn in Hc, Hu. injection Hc as <-. injection Hu as <-. simpl. split; [discriminate|intros []].
  - cbn [Contains is_var_at] in Hc. rewrite uvars_Var in Hu.
    destruct (Nat.eqb q p) eqn:E.
    + apply Nat.eqb_eq in E. subst q. injection Hc as <-. rewrite Hp, Hv in Hu.
      injection Hu as <-. simpl. tauto.
    + apply Nat.eqb_neq in E. destruct (h !! q) as [w|]; [|discriminate].
      destruct (Ref w) as [r|].
      * eapply IH; eassumption.
      * injection Hc as <-. injection Hu as <-. simpl. split; [discriminate|intros [Hpq|[]]; congruence].
  - rewrite Contains_Compound in Hc. cbn [is_atom_named] in Hc. rewrite uvars_Compound in Hu.
    revert b vs Hc Hu. induction args as [|a l IHl]; intros b vs Hc Hu.
    + cbn in Hc, Hu. injection Hc as <-. injection Hu as <-. simpl. split; [discriminate|intros []].
    + cbn [contains_args] in Hc. rewrite uvars_args_cons in Hu.
      destruct (uvars n h a) as [s|] eqn:Ea; [|discriminate].
      destruct (uvars_args n h l) as [ss|] eqn:El; [|discriminate].
      injection Hu as <-. rewrite in_app_iff.
      destruct (Contains n h a (Var p)) as [[|]|] eqn:Ec; try discriminate.
      * injection Hc as <-. pose proof (IH h a p v true s Hp Hv Ec Ea). tauto.
      * pose proof (IH h a p v false s Hp Hv Ec Ea).
        pose proof (IHl b ss Hc eq_refl). split; [tauto|].
        intros [Hin|Hin]; [|tauto]. assert (false = true) by tauto. discriminate.
Qed.

Lemma contains_iff_uvars_witness :
  ([mkVariable "X" None; mkVariable "Y" (Some (Compound "g" [Var 0]))] !! 0 = Some (mkVariable "X" None) /\
   Ref (mkVariable "X" None) = None /\
   Contains 5 [mkVariable "X" None; mkVariable "Y" (Some (Compound "g" [Var 0]))]
     (Compound "f" [Atom "a"; Var 1]) (Var 0) = Some true /\
   uvars 5 [mkVariable "X" None; mkVariable "Y" (Some (Compound "g" [Var 0]))]
     (Compound "f" [Atom "a"; Var 1]) = Some [0]) /\
  (true = true <-> In 0 [0]).
Proof.
  split; [repeat split|].
  apply (contains_iff_uvars 5 [mkVariable "X" None; mkVariable "Y" (Some (Compound "g" [Var 0]))]
           (Compound "f" [Atom "a"; Var 1]) 0 (mkVariable "X" None)); reflexivity.
Defined.

Lemma groundb_Compound f args : groundb (Compound f args) = forallb groundb args.
Proof.
  simpl. induction args as [|a l IH]; [reflexivity|]. simpl. rewrite IH. reflexivity.
Qed.

(** X6. Copying a term without variables allocates no variable and
    returns a structurally equal term. *)
Theorem copy_ground_unchanged (n : nat) :
  forall (h : heap) (t : Term) (h' : heap) (t' : Term),
  groundb t = true -> Copy n h t = Some (h', t') -> h' = h /\ t' = t.
Proof.
  induction n as [|n IH]; intros h t h' t' Hg Hc; [discriminate|].
  destruct t as [a|i|q|f args].
  - injection Hc as <- <-. split; reflexivity.
  - injection Hc as <- <-. split; reflexivity.
  - discriminate.
  - rewrite groundb_Compound in Hg. rewrite Copy_Compound in Hc.
    destruct (copy_args n h args) as [[h2 args2]|] eqn:E; [|discriminate].
    injection Hc as <- <-.
    assert (Hargs : forall l h0 h3 l3, forallb groundb l = true ->
              copy_args n h0 l = Some (h3, l3) -> h3 = h0 /\ l3 = l).
    { induction l as [|a l IHl]; intros h0 h3 l3 Hl Hcl.
      - injection Hcl as <- <-. split; reflexivity.
      - simpl in Hl. apply andb_true_iff in Hl as [Ha Hl].
        rewrite copy_args_cons in Hcl.
        destruct (Copy n h0 a) as [[h4 a4]|] eqn:Ea; [|discriminate].
        destruct (copy_args n h4 l) as [[h5 l5]|] eqn:El; [|discriminate].
        injection Hcl as <- <-.
        destruct (IH h0 a h4 a4 Ha Ea) as [-> ->].
        destruct (IHl h0 h5 l5 Hl El) as [-> ->]. split; reflexivity. }
    destruct (Hargs args h h2 args2 Hg E) as [-> ->]. split; reflexivity.
Qed.

Lemma copy_ground_unchanged_witness :
  groundb (Compound "f" [Atom "a"; Integer 1]) = true /\
  Copy 3 [] (Compound "f" [Atom "a"; Integer 1]) = Some ([], Compound "f" [Atom "a"; Integer 1]) /\
  ([] : heap) = [] /\ Compound "f" [Atom "a"; Integer 1] = Compound "f" [Atom "a"; Integer 1].
Proof.
  split; [reflexivity|]. split; [reflexivity|].
  exact (copy_ground_unchanged 3 [] (Compound "f" [Atom "a"; Integer 1]) []
           (Compound "f" [Atom "a"; Integer 1]) eq_refl eq_refl).
Defined.

End PtrTermMore.

(* ================================================================== *)
(** ** More properties of the engine and the VM (part_000) *)
(* ================================================================== *)

Module EngineMore.
Import Engine.

Lemma is_digit_pretty_N_char d : is_digit (pretty_N_char d) = true.
Proof. unfold pretty_N_char. repeat case_match; reflexivity. Qed.

Lemma all_digits_pretty_N_go x : forall s, all_digits s = true -> all_digits (pretty_N_go x s) = true.
Proof.
  induction (N.lt_wf_0 x) as [x _ IH]; intros s Hs.
  destruct (decide (0 < x)%N) as [Hx|Hx].
  - rewrite pretty_N_go_step by exact Hx. apply IH.
    + apply N.div_lt; lia.
    + simpl. rewrite is_digit_pretty_N_char, Hs. reflexivity.
  - replace x with 0%N by lia. rewrite pretty_N_go_0. exact Hs.
Qed.

Lemma pretty_N_go_nonempty x : forall s, s <> EmptyString -> pretty_N_go x s <> EmptyString.
Proof.
  induction (N.lt_wf_0 x) as [x _ IH]; intros s Hs.
  destruct (decide (0 < x)%N) as [Hx|Hx].
  - rewrite pretty_N_go_step by exact Hx. apply IH; [apply N.div_lt; lia|discriminate].
  - replace x with 0%N by lia. rewrite pretty_N_go_0. exact Hs.
Qed.

(** X9. Every name [NewVariable] produces, ["_"] followed by the
    decimal counter, matches the [Generated] pattern [\A_\d+\z], for any
    value of the counter (also after wrapping). *)
Theorem new_variable_generated (varCounter : Z) :
  match snd (NewVariable varCounter) with Var v => Generated v = true | _ => False end.
Proof.
  unfold NewVariable. cbn [snd]. set (x := Z.to_N _).
  assert (H : pretty x <> EmptyString /\ all_digits (pretty x) = true).
  { unfold pretty, pretty_N. destruct (decide (x = 0%N)).
    - split; [discriminate|reflexivity].
    - split.
      + rewrite pretty_N_go_step by lia. apply pretty_N_go_nonempty. discriminate.
      + apply all_digits_pretty_N_go. reflexivity. }
  destruct H as [Hne Hd]. destruct (pretty x) as [|c rest]; [contradiction|].
  exact Hd.
Qed.

End EngineMore.

Module VMMore.
Import Engine VM.

(** X7. After [Register k name p], arriving at [name/k] delays a call of
    the registered procedure, which invokes [p] with the arguments when
    there are exactly [k] of them and fails with "wrong number of
    arguments" otherwise; arriving at any other indicator behaves as
    before the registration. *)
Theorem register_arrive_call (k : nat) (name impl : string) (vm : VMState)
  (args : list Term) (env : Env) (tr : trace) :
  (exists p, Arrive (Register k name impl vm) (mkPI name (Z.of_nat k)) args env tr =
               (DelayProcCall p args env, tr) /\
             Call p args env =
               if Nat.eqb (length args) k then Invoked impl args env
               else CallError "wrong number of arguments" (if Nat.eqb k 1 then Some args else None)) /\
  (forall pi, (PIName pi, PIArity pi) <> (name, Z.of_nat k) ->
     Arrive (Register k name impl vm) pi args env tr = Arrive vm pi args env tr).
Proof.
  split.
  - exists (mkProcedure k impl). split.
    + unfold Arrive, Register. simpl. rewrite lookup_insert_eq. reflexivity.
    + reflexivity.
  - intros pi Hne. unfold Arrive, Register. simpl.
    rewrite lookup_insert_ne by (intros E; apply Hne; symmetry; exact E). reflexivity.
Qed.

Lemma Resolve_nonvar env t : match t with Var _ => False | _ => True end -> Resolve env t = t.
Proof. intros H. unfold Resolve. destruct t; [contradiction| | | |]; reflexivity. Qed.

(** X8. [NewProcedureIndicator] inverts [ProcedureIndicator.Term]:
    [Name/Arity] reads back as the indicator in every environment; and
    whenever it returns an indicator, the term resolves to a ["/"]/2
    compound whose arguments resolve to its name and arity. *)
Theorem new_procedure_indicator_round_trip :
  (forall pi env, NewProcedureIndicator (PITerm pi) env = inr pi) /\
  (forall t env pi, NewProcedureIndicator t env = inr pi ->
     exists a0 a1, Resolve env t = Compound "/" [a0; a1] /\
       Resolve env a0 = Atom (PIName pi) /\ Resolve env a1 = Integer (PIArity pi)).
Proof.
  split.
  - intros [f a] env. reflexivity.
  - intros t env pi H. unfold NewProcedureIndicator in H.
    destruct (Resolve env t) as [v|x|i|x|f args]; try discriminate.
    destruct (negb (String.eqb f "/") || negb (Nat.eqb (length args) 2)) eqn:E; [discriminate|].
    apply orb_false_iff in E as [E1 E2]. apply negb_false_iff in E1, E2.
    apply String.eqb_eq in E1. apply Nat.eqb_eq in E2. subst f.
    destruct args as [|a0 [|a1 [|]]]; try discriminate.
    destruct (Resolve env a0) as [v|x|i|x|g gs] eqn:Ea0; try discriminate.
    destruct (Resolve env a1) as [v|y|i|y|g gs] eqn:Ea1; try discriminate.
    injection H as <-. exists a0, a1. simpl. auto.
Qed.

Section ExecMore.

Context (unify : Env -> Term -> Term -> Env * bool).
Context (functor_force : Term -> string -> Z -> Env -> Z -> Z * ForceResult).
Context (univ_force : Term -> Term -> Env -> Z -> Z * ForceResult).
Context (cont : Env -> Z -> Z * Promise).

(** What a handler returns other than at an [Exit] instruction. *)
Definition ret_ok (r : registers) (i : instruction) (rest : bytecode) (p : Promise) : Prop :=
  match p with
  | Bool false | Error _ => True
  | DelayCall pi r' =>
    opcode i = opCall /\ pis r !! N.to_nat (operand i) = Some pi /\
    pc r' = rest /\ xr r' = xr r /\ vars r' = vars r /\ pis r' = pis r
  | CutResume r' =>
    opcode i = opCut /\ pc r' = rest /\ xr r' = xr r /\ vars r' = vars r /\ pis r' = pis r
  | _ => False
  end.

(** What one handler step may produce. *)
Definition step_ok (r : registers) (c : Z) (i : instruction) (rest : bytecode) (s : StepResult) : Prop :=
  match s with
  | Next r' _ => pc r' = rest /\ xr r' = xr r /\ vars r' = vars r /\ pis r' = pis r
  | Ret p c' => (opcode i = opExit /\ cont (renv r) c = (c', p)) \/ ret_ok r i rest p
  | Panic _ => True
  end.

Ltac destruct_handler :=
  repeat match goal with
  | |- context [match ?x with _ => _ end] =>
    lazymatch x with
    | context [match _ with _ => _ end] => fail
    | _ => let E := fresh "E" in destruct x eqn:E
    end
  end;
  simpl;
  try solve [repeat split
            | right; repeat split; try assumption; try (apply N.eqb_eq; assumption)].

Lemma handler_step_ok r c i rest op :
  pc r = i :: rest -> jumpTable unify functor_force univ_force cont (opcode i) = Some op ->
  step_ok r c i rest (op r c).
Proof.
  intros Hpc Hj. unfold jumpTable in Hj.
  destruct (N.eqb (opcode i) opConst) eqn:E1;
    [injection Hj as <-; unfold step_ok, execConst; rewrite Hpc; cbv beta iota; destruct_handler|].
  destruct (N.eqb (opcode i) opVar) eqn:E2;
    [injection Hj as <-; unfold step_ok, execVar; rewrite Hpc; cbv beta iota; destruct_handler|].
  destruct (N.eqb (opcode i) opFunctor) eqn:E3;
    [injection Hj as <-; unfold step_ok, execFunctor; rewrite Hpc; cbv beta iota; destruct_handler|].
  destruct (N.eqb (opcode i) opPop) eqn:E4;
    [injection Hj as <-; unfold step_ok, execPop; rewrite Hpc; cbv beta iota; destruct_handler|].
  destruct (N.eqb (opcode i) opEnter) eqn:E5;
    [injection Hj as <-; unfold step_ok, execEnter; rewrite Hpc; cbv beta iota; destruct_handler|].
  destruct (N.eqb (opcode i) opCall) eqn:E6;
    [injection Hj as <-; unfold step_ok, execCall; rewrite Hpc; cbv beta iota; destruct_handler|].
  destruct (N.eqb (opcode i) opExit) eqn:E7.
  { injection Hj as <-. unfold step_ok, execExit.
    destruct (cont (renv r) c) as [c1 p1] eqn:Ec. left. split; [apply N.eqb_eq; exact E7|reflexivity]. }
  destruct (N.eqb (opcode i) opCut) eqn:E8;
    [injection Hj as <-; unfold step_ok, execCut; rewrite Hpc; cbv beta iota; destruct_handler|].
  discriminate.
Qed.

(** What [exec] may return from [r] and [c]: at an [Exit] instruction
    reached by the loop, what the continuation returns; otherwise
    [Bool(false)], an error, or a [Call] or [Cut] suspension resuming
    right after its instruction with the same tables. *)
Definition exec_ok (r : registers) (c : Z) (p : Promise) (c' : Z) : Prop :=
  (exists r0 c0 i rest, steps unify functor_force univ_force cont r c r0 c0 /\
     pc r0 = i :: rest /\ opcode i = opExit /\ cont (renv r0) c0 = (c', p)) \/
  match p with
  | Bool false | Error _ => True
  | DelayCall pi r' =>
    exists pre i, pc r = pre ++ i :: pc r' /\ opcode i = opCall /\
      pis r !! N.to_nat (operand i) = Some pi /\
      xr r' = xr r /\ vars r' = vars r /\ pis r' = pis r
  | CutResume r' =>
    exists pre i, pc r = pre ++ i :: pc r' /\ opcode i = opCut /\
      xr r' = xr r /\ vars r' = vars r /\ pis r' = pis r
  | _ => False
  end.

Lemma exec_go_ok fuel : forall r c p c',
  exec_go unify functor_force univ_force cont fuel r c = Returned p c' -> exec_ok r c p c'.
Proof.
  induction fuel as [|n IH]; intros r c p c' H; [discriminate|].
  simpl in H. destruct (pc r) as [|i rest] eqn:Hpc.
  { injection H as <- _. right. exact I. }
  destruct (jumpTable unify functor_force univ_force cont (opcode i)) as [op|] eqn:Hj; [|discriminate].
  pose proof (handler_step_ok r c i rest op Hpc Hj) as Hs.
  destruct (op r c) as [r1 c1|p1 c1|m] eqn:Hop; [|injection H as -> ->|discriminate].
  - destruct Hs as (Hpc1 & Hx1 & Hv1 & Hp1).
    destruct (IH r1 c1 p c' H) as [(r0 & c0 & j & rest0 & Hst & Hpc0 & Ho & Hc)|IHr].
    + left. exists r0, c0, j, rest0. split; [|auto].
      eapply steps_next; eassumption.
    + right. destruct p as [[|]|e|q a en|pi r'|r'|t]; try exact I; try contradiction.
      * destruct IHr as (pre & j & Hpre & Ho & Hl & Hx & Hv & Hp).
        exists (i :: pre), j. rewrite Hpc, <- Hpc1, Hpre. rewrite <- Hp1.
        repeat split; try assumption; congruence.
      * destruct IHr as (pre & j & Hpre & Ho & Hx & Hv & Hp).
        exists (i :: pre), j. rewrite Hpc, <- Hpc1, Hpre.
        repeat split; try assumption; congruence.
  - destruct Hs as [[Ho Hc]|Hs].
    + left. exists r, c, i, rest. repeat split; try assumption. constructor.
    + right. unfold ret_ok in Hs.
      destruct p as [[|]|e|q a en|pi r'|r'|t]; try exact I; try contradiction.
      * destruct Hs as (Ho & Hl & Hpc' & Hx & Hv & Hp).
        exists [], i. rewrite Hpc, Hpc'. repeat split; assumption.
      * destruct Hs as (Ho & Hpc' & Hx & Hv & Hp).
        exists [], i. rewrite Hpc, Hpc'. repeat split; assumption.
Qed.

(** X10. Whatever unification, the built-ins and the clause's
    continuation do, what [exec] returns is either what the
    continuation returned at an [Exit] instruction the loop reached, or
    [Bool(false)], an error, or a suspension on a [Call] or [Cut]
    instruction whose registers resume right after that instruction
    and keep the constant, variable and indicator tables (a call
    carrying the indicator its operand selects).  In particular [exec]
    itself never builds [Bool(true)] nor a delayed procedure call. *)
Theorem exec_returns (r : registers) (c : Z) (p : Promise) (c' : Z) :
  exec unify functor_force univ_force cont r c = Returned p c' -> exec_ok r c p c'.
Proof. apply exec_go_ok. Qed.

End ExecMore.

Lemma exec_returns_witness :
  exists p c',
  exec (fun e _ _ => (e, true)) (fun _ _ _ _ c => (c, FFalse)) (fun _ _ _ c => (c, FFalse))
    (fun _ c => (c, Bool true))
    (mkRegisters [mkInstruction opEnter 0; mkInstruction opExit 0]
       [] [] List0 List0 [] ∅) 0 = Returned p c' /\
  exec_ok (fun e _ _ => (e, true)) (fun _ _ _ _ c => (c, FFalse)) (fun _ _ _ c => (c, FFalse))
    (fun _ c => (c, Bool true))
    (mkRegisters [mkInstruction opEnter 0; mkInstruction opExit 0]
       [] [] List0 List0 [] ∅) 0 p c'.
Proof.
  eexists _, _. split; [reflexivity|].
  eapply (exec_returns (fun e _ _ => (e, true)) (fun _ _ _ _ c => (c, FFalse))
            (fun _ _ _ c => (c, FFalse)) (fun _ c => (c, Bool true))). reflexivity.
Defined.

End VMMore.

(* ================================================================== *)
(** ** Properties of the operator table of the parser (parser.go) *)
(* ================================================================== *)

Module ParserFacts.
Import Parser.

Lemma find_filter_single {A} (f k g : A -> bool) (l : list A) (o : A) :
  List.filter (fun x => f x && k x) l = [o] ->
  (forall x, In x l -> f x = true -> k x = false -> g x = false) ->
  find (fun x => g x && f x) l = if g o then Some o else None.
Proof.
  induction l as [|a l IH]; intros H Hside; [discriminate|].
  simpl in H. simpl. destruct (f a && k a) eqn:Ea.
  - injection H as -> Hl. apply andb_true_iff in Ea as [Ef _]. rewrite Ef, andb_true_r.
    destruct (g o); [reflexivity|].
    clear IH. induction l as [|b l IHl]; [reflexivity|].
    simpl in Hl. simpl. destruct (f b && k b) eqn:Eb; [discriminate|].
    destruct (f b) eqn:Ef'.
    + rewrite (Hside b (or_intror (or_introl eq_refl)) Ef') by (destruct (k b); [discriminate|reflexivity]).
      apply IHl; [exact Hl|]. intros x Hx. apply Hside. destruct Hx as [->|Hx]; [left; reflexivity|right; right; exact Hx].
    + rewrite andb_false_r. apply IHl; [exact Hl|].
      intros x Hx. apply Hside. destruct Hx as [->|Hx]; [left; reflexivity|right; right; exact Hx].
  - destruct (f a) eqn:Ef.
    + rewrite (Hside a (or_introl eq_refl) Ef) by (destruct (k a); [discriminate|reflexivity]).
      simpl. apply IH; [exact H|]. intros x Hx. apply Hside. right. exact Hx.
    + rewrite andb_false_r. apply IH; [exact H|]. intros x Hx. apply Hside. right. exact Hx.
Qed.

Lemma wrap_int_small z : (- 2 ^ 63 <= z < 2 ^ 63)%Z -> wrap_int z = z.
Proof. intros H. unfold wrap_int. rewrite Z.mod_small; lia. Qed.

Lemma bindingPowers_prefix o : is_prefix (Specifier o) = true -> fst (bindingPowers o) = 0%Z.
Proof.
  unfold is_prefix, bindingPowers. intros H.
  destruct (N.eqb (Specifier o) OperatorSpecifierFX); [reflexivity|].
  simpl in H. rewrite H. reflexivity.
Qed.

(** With [o] the only operator of the table other than prefix ones that
    the token is accepted as, and [min] at least 1, [acceptOp] returns
    [o] exactly when its left binding power reaches [min]: prefix
    operators have left binding power 0. *)
Lemma acceptOp_nonprefix ops min accepts o :
  (1 <= min)%Z ->
  List.filter (fun op => accepts (Name op) && negb (is_prefix (Specifier op))) ops = [o] ->
  acceptOp ops min accepts = if (min <=? fst (bindingPowers o))%Z then Some o else None.
Proof.
  intros Hmin H. unfold acceptOp.
  apply (find_filter_single (fun op => accepts (Name op)) (fun op => negb (is_prefix (Specifier op)))
           (fun op => (min <=? fst (bindingPowers op))%Z) ops o H).
  intros x _ _ Hk. apply negb_false_iff in Hk. rewrite (bindingPowers_prefix x Hk).
  apply Z.leb_gt. lia.
Qed.

Lemma bindingPowers_infix o :
  is_infix (Specifier o) = true -> (1 <= Priority o <= 1200)%Z ->
  (Specifier o = OperatorSpecifierXFX /\
     bindingPowers o = (1201 - Priority o + 1, 1201 - Priority o + 1)%Z) \/
  (Specifier o = OperatorSpecifierXFY /\
     bindingPowers o = (1201 - Priority o + 1, 1201 - Priority o)%Z) \/
  (Specifier o = OperatorSpecifierYFX /\
     bindingPowers o = (1201 - Priority o, 1201 - Priority o + 1)%Z).
Proof.
  intros Hi HP. unfold bindingPowers. cbv zeta.
  rewrite (wrap_int_small (1201 - Priority o)) by lia.
  rewrite (wrap_int_small (1201 - Priority o + 1)) by lia.
  revert Hi. unfold is_infix. destruct (Specifier o) as [|s]; [discriminate|].
  destruct s as [s|s|]; try destruct s as [s|s|]; try destruct s as [s|s|];
    try discriminate; cbn; auto.
Qed.

(** X11. For an infix operator [o] of priority 1..1200 that is the
    only entry of the table the token is accepted as, apart from prefix
    entries (as [+] and [-] are both yfx 500 and fy 200): in the right
    operand of [o] (parsed by [expr] with [min] its right binding
    power), [acceptOp] takes [o] again when it is xfy or xfx, and does
    not when it is yfx.  Chains [a o b o c] group to the right for xfy
    and also for xfx, and to the left for yfx. *)
Theorem operator_associativity (ops : list Operator) (o : Operator) (accepts : string -> bool) :
  List.filter (fun op => accepts (Name op) && negb (is_prefix (Specifier op))) ops = [o] ->
  (1 <= Priority o <= 1200)%Z ->
  (Specifier o = OperatorSpecifierXFX -> acceptOp ops (snd (bindingPowers o)) accepts = Some o) /\
  (Specifier o = OperatorSpecifierXFY -> acceptOp ops (snd (bindingPowers o)) accepts = Some o) /\
  (Specifier o = OperatorSpecifierYFX -> acceptOp ops (snd (bindingPowers o)) accepts = None).
Proof.
  intros H HP.
  assert (Hi : Specifier o = OperatorSpecifierXFX \/ Specifier o = OperatorSpecifierXFY \/
               Specifier o = OperatorSpecifierYFX -> is_infix (Specifier o) = true)
    by (intros [->|[->| ->]]; reflexivity).
  repeat split; intros Hs;
    (assert (Hi' : is_infix (Specifier o) = true) by (apply Hi; auto));
    (assert (Hmin : (1 <= snd (bindingPowers o))%Z)
       by (destruct (bindingPowers_infix o Hi' HP) as [[_ ->]|[[_ ->]|[_ ->]]]; simpl; lia));
    rewrite (acceptOp_nonprefix ops _ accepts o Hmin H);
    destruct (bindingPowers_infix o Hi' HP) as [[S ->]|[[S ->]|[S ->]]];
    rewrite Hs in S; try discriminate; cbn [fst snd];
    match goal with |- context [Z.leb ?a ?b] => destruct (Z.leb_spec a b) end;
    first [reflexivity | lia].
Qed.

Lemma operator_associativity_witness :
  (List.filter (fun op => String.eqb "+" (Name op) && negb (is_prefix (Specifier op)))
     [mkOperator 500 OperatorSpecifierYFX "+"; mkOperator 500 OperatorSpecifierYFX "-";
      mkOperator 200 OperatorSpecifierFY "-"; mkOperator 200 OperatorSpecifierFY "+"] =
     [mkOperator 500 OperatorSpecifierYFX "+"] /\
   (1 <= Priority (mkOperator 500 OperatorSpecifierYFX "+") <= 1200)%Z) /\
  ((Specifier (mkOperator 500 OperatorSpecifierYFX "+") = OperatorSpecifierXFX ->
    acceptOp [mkOperator 500 OperatorSpecifierYFX "+"; mkOperator 500 OperatorSpecifierYFX "-";
              mkOperator 200 OperatorSpecifierFY "-"; mkOperator 200 OperatorSpecifierFY "+"]
      (snd (bindingPowers (mkOperator 500 OperatorSpecifierYFX "+"))) (String.eqb "+") =
      Some (mkOperator 500 OperatorSpecifierYFX "+")) /\
   (Specifier (mkOperator 500 OperatorSpecifierYFX "+") = OperatorSpecifierXFY ->
    acceptOp [mkOperator 500 OperatorSpecifierYFX "+"; mkOperator 500 OperatorSpecifierYFX "-";
              mkOperator 200 OperatorSpecifierFY "-"; mkOperator 200 OperatorSpecifierFY "+"]
      (snd (bindingPowers (mkOperator 500 OperatorSpecifierYFX "+"))) (String.eqb "+") =
      Some (mkOperator 500 OperatorSpecifierYFX "+")) /\
   (Specifier (mkOperator 500 OperatorSpecifierYFX "+") = OperatorSpecifierYFX ->
    acceptOp [mkOperator 500 OperatorSpecifierYFX "+"; mkOperator 500 OperatorSpecifierYFX "-";
              mkOperator 200 OperatorSpecifierFY "-"; mkOperator 200 OperatorSpecifierFY "+"]
      (snd (bindingPowers (mkOperator 500 OperatorSpecifierYFX "+"))) (String.eqb "+") = None)).
Proof.
  split; [split; [reflexivity|simpl; lia]|].
  apply (operator_associativity
           [mkOperator 500 OperatorSpecifierYFX "+"; mkOperator 500 OperatorSpecifierYFX "-";
            mkOperator 200 OperatorSpecifierFY "-"; mkOperator 200 OperatorSpecifierFY "+"]
           (mkOperator 500 OperatorSpecifierYFX "+") (String.eqb "+")); [reflexivity|simpl; lia].
Defined.

(** X12. Between two infix operators of priority 1..1200, [o2] being
    the only entry the token is accepted as apart from prefix entries,
    in the right operand of [o1]: an [o2] of lower priority is always
    taken in, one of priority at least two above never is; but an xfx
    or xfy [o2] of priority exactly one above an xfy [o1] is still
    taken in. *)
Theorem operator_precedence (ops : list Operator) (o1 o2 : Operator) (accepts : string -> bool) :
  List.filter (fun op => accepts (Name op) && negb (is_prefix (Specifier op))) ops = [o2] ->
  is_infix (Specifier o1) = true -> is_infix (Specifier o2) = true ->
  (1 <= Priority o1 <= 1200)%Z -> (1 <= Priority o2 <= 1200)%Z ->
  ((Priority o2 < Priority o1)%Z -> acceptOp ops (snd (bindingPowers o1)) accepts = Some o2) /\
  ((Priority o1 + 2 <= Priority o2)%Z -> acceptOp ops (snd (bindingPowers o1)) accepts = None) /\
  (Specifier o1 = OperatorSpecifierXFY -> Specifier o2 <> OperatorSpecifierYFX ->
   Priority o2 = (Priority o1 + 1)%Z -> acceptOp ops (snd (bindingPowers o1)) accepts = Some o2).
Proof.
  intros H H1 H2 HP1 HP2.
  assert (Hmin : (1 <= snd (bindingPowers o1))%Z).
  { destruct (bindingPowers_infix o1 H1 HP1) as [[_ ->]|[[_ ->]|[_ ->]]]; simpl; lia. }
  rewrite !(acceptOp_nonprefix ops _ accepts o2 Hmin H).
  destruct (bindingPowers_infix o1 H1 HP1) as [[S1 ->]|[[S1 ->]|[S1 ->]]];
  destruct (bindingPowers_infix o2 H2 HP2) as [[S2 ->]|[[S2 ->]|[S2 ->]]]; cbn [fst snd];
  repeat split; intros;
  try (rewrite S1 in *; discriminate);
  try (rewrite S2 in *; congruence);
  match goal with |- context [Z.leb ?a ?b] => destruct (Z.leb_spec a b) end;
  first [reflexivity | lia].
Qed.

Lemma operator_precedence_witness :
  (List.filter (fun op => String.eqb "=>" (Name op) && negb (is_prefix (Specifier op)))
     [mkOperator 1001 OperatorSpecifierXFX "=>"; mkOperator 200 OperatorSpecifierFY "=>";
      mkOperator 1000 OperatorSpecifierXFY ","] =
     [mkOperator 1001 OperatorSpecifierXFX "=>"] /\
   is_infix (Specifier (mkOperator 1000 OperatorSpecifierXFY ",")) = true /\
   is_infix (Specifier (mkOperator 1001 OperatorSpecifierXFX "=>")) = true /\
   (1 <= Priority (mkOperator 1000 OperatorSpecifierXFY ",") <= 1200)%Z /\
   (1 <= Priority (mkOperator 1001 OperatorSpecifierXFX "=>") <= 1200)%Z) /\
  acceptOp [mkOperator 1001 OperatorSpecifierXFX "=>"; mkOperator 200 OperatorSpecifierFY "=>";
            mkOperator 1000 OperatorSpecifierXFY ","]
    (snd (bindingPowers (mkOperator 1000 OperatorSpecifierXFY ","))) (String.eqb "=>") =
    Some (mkOperator 1001 OperatorSpecifierXFX "=>").
Proof.
  split; [repeat split; simpl; lia|].
  refine (proj2 (proj2 (operator_precedence
           [mkOperator 1001 OperatorSpecifierXFX "=>"; mkOperator 200 OperatorSpecifierFY "=>";
            mkOperator 1000 OperatorSpecifierXFY ","]
           (mkOperator 1000 OperatorSpecifierXFY ",") (mkOperator 1001 OperatorSpecifierXFX "=>")
           (String.eqb "=>") eq_refl eq_refl eq_refl ltac:(simpl; lia) ltac:(simpl; lia)))
           eq_refl _ eq_refl).
  discriminate.
Defined.

End ParserFacts.
